(** * sinzlab-tools: the command line front end ([sinzlab_tools/main.py])

    A shallow embedding of the parsing and host-list code of [main.py],
    together with the two helpers it imports from [sinzlab_tools/utils.py]
    ([run_group_command], [construct_table]), and the properties the
    specification states about them.

    Python values are modelled as follows.
    - [str] is a sequence of Unicode code points: [list N].  Literals of the
      source are written [lit "..."] (all of them are ASCII, apart from the
      degree sign of one header, which is spelled out as code point 176).
    - a [dict] keeps insertion order and has unique keys: an association
      list updated through [dict_set].
    - [str.split(sep)], [str.split()], [str.join], [zip], the slice [[:-1]]
      and [re.search] are library functions of Python; each one gets a
      definition of its own below, with its behaviour on examples.
    - an exception is a value of [exn]; code that can raise returns an
      [outcome], and code that also talks to a remote host threads the state
      of the outside world ([Run]). *)

From Stdlib Require Import NArith ZArith Ascii String DecimalString.
From stdpp Require Import base option list gmap sorting.

Abbreviation str := (list N).

(** An ASCII literal of the source, as code points. *)
Definition lit (s : string) : str :=
  map N_of_ascii (list_ascii_of_string s).

Definition NL : str := [10%N].        (* the line feed *)
Definition DQUOTE : str := [34%N].    (* the double quote *)
Definition DEGREE : str := [176%N].   (* the degree sign *)

(** ** Python's string and dict library *)

Module Py.

(** [s.startswith(p)] *)
Fixpoint startswith (p s : str) : bool :=
  match p, s with
  | [], _ => true
  | _ :: _, [] => false
  | a :: p', b :: s' => (a =? b)%N && startswith p' s'
  end.

(** [s.split(sep)] for a non-empty [sep] (an empty one raises ValueError;
    every separator of [main.py] is a non-empty constant).  The string is
    scanned from the left; an occurrence of [sep] closes the current piece
    and its characters are skipped ([skip] counts those still to skip), so
    occurrences do not overlap. *)
Fixpoint split_go (sep : str) (skip : nat) (s : str) : list str :=
  match s with
  | [] => [[]]
  | c :: s' =>
      match skip with
      | S k => split_go sep k s'
      | O =>
          if startswith sep s
          then [] :: split_go sep (length sep - 1) s'
          else match split_go sep 0 s' with
               | piece :: pieces => (c :: piece) :: pieces
               | [] => [[c]]
               end
      end
  end.

Definition split (sep s : str) : list str := split_go sep 0 s.

(** [str.isspace] on one code point (Unicode 14, as CPython 3.11 has it). *)
Definition isspace (c : N) : bool :=
  ((9 <=? c) && (c <=? 13) || (28 <=? c) && (c <=? 32)
   || (c =? 133) || (c =? 160) || (c =? 5760)
   || (8192 <=? c) && (c <=? 8202)
   || (c =? 8232) || (c =? 8233) || (c =? 8239) || (c =? 8287)
   || (c =? 12288))%N.

(** [s.split()]: the maximal runs of non-whitespace characters. [word] is
    the run being read, reversed. *)
Fixpoint split_ws_go (word : str) (s : str) : list str :=
  match s with
  | [] => match word with [] => [] | _ => [reverse word] end
  | c :: s' =>
      if isspace c
      then match word with
           | [] => split_ws_go [] s'
           | _ => reverse word :: split_ws_go [] s'
           end
      else split_ws_go (c :: word) s'
  end.

Definition split_ws (s : str) : list str := split_ws_go [] s.

(** [sep.join(parts)] *)
Fixpoint join (sep : str) (parts : list str) : str :=
  match parts with
  | [] => []
  | [p] => p
  | p :: ps => p ++ sep ++ join sep ps
  end.

(** The slice [l[:-1]]. *)
Definition droplast {A} (l : list A) : list A := take (length l - 1) l.

(** The zero digits of the Unicode category Nd (Unicode 14): every decimal
    digit lies in a run of ten that starts at one of them. *)
Definition digit_zeros : list N :=
  [48; 1632; 1776; 1984; 2406; 2534; 2662; 2790; 2918; 3046; 3174; 3302;
   3430; 3558; 3664; 3792; 3872; 4160; 4240; 6112; 6160; 6470; 6608; 6784;
   6800; 6992; 7088; 7232; 7248; 42528; 43216; 43264; 43472; 43504; 43600;
   44016; 65296; 66720; 68912; 69734; 69872; 69942; 70096; 70384; 70736;
   70864; 71248; 71360; 71472; 71904; 72016; 72784; 73040; 73120; 92768;
   92864; 93008; 120782; 120792; 120802; 120812; 120822; 123200; 123632;
   125264; 130032]%N.

(** The class [\d] of a [str] pattern: any Unicode decimal digit. *)
Definition isdigit (c : N) : bool :=
  existsb (λ z, (z <=? c) && (c <? z + 10))%N digit_zeros.

(** A [dict] with string keys, in insertion order. *)
Abbreviation dict V := (list (str * V)).

(** [d[k] = v]: an existing key keeps its place, a new one goes last. *)
Fixpoint dict_set {V} (d : dict V) (k : str) (v : V) : dict V :=
  match d with
  | [] => [(k, v)]
  | (k', v') :: d' =>
      if decide (k' = k) then (k', v) :: d' else (k', v') :: dict_set d' k v
  end.

(** [d.get(k)] *)
Fixpoint dict_get {V} (d : dict V) (k : str) : option V :=
  match d with
  | [] => None
  | (k', v) :: d' => if decide (k' = k) then Some v else dict_get d' k
  end.

Definition dict_keys {V} (d : dict V) : list str := d.*1.

(** [{k: v for k, v in pairs}] *)
Definition dict_of {V} (pairs : list (str * V)) : dict V :=
  foldl (λ d kv, dict_set d kv.1 kv.2) [] pairs.

(** String comparison [a <= b]: lexicographic on code points. *)
Fixpoint str_leb (a b : str) : bool :=
  match a, b with
  | [], _ => true
  | _ :: _, [] => false
  | x :: a', y :: b' => (x <? y)%N || ((x =? y)%N && str_leb a' b')
  end.

Definition str_le (a b : str) : Prop := str_leb a b = true.

#[global] Instance str_le_dec : RelDecision str_le.
Proof. intros a b. unfold str_le. apply _. Defined.

End Py.

Import Py.

(** A record of the table: field name to value. *)
Abbreviation record := (dict str).

(** ** Exceptions and remote execution *)

Inductive exn : Type :=
| IndexError
| KeyError (key : str)
| RemoteFailure (reason : str).

Inductive outcome (A : Type) : Type :=
| Returned (a : A)
| Raised (e : exn).
Arguments Returned {A} a.
Arguments Raised {A} e.

#[global] Instance outcome_ret : MRet outcome := λ A a, Returned a.
#[global] Instance outcome_bind : MBind outcome := λ A B f c,
  match c with
  | Returned a => f a
  | Raised e => Raised e
  end.

(** A computation that runs commands on remote hosts: it reads and changes
    the state [World] of those hosts, and returns or raises. *)
Definition Run (World A : Type) : Type := World → outcome A * World.

#[global] Instance Run_ret {World} : MRet (Run World) :=
  λ A a w, (Returned a, w).
#[global] Instance Run_bind {World} : MBind (Run World) := λ A B f c w,
  match c w with
  | (Returned a, w') => f a w'
  | (Raised e, w') => (Raised e, w')
  end.

Definition raise {World A} (e : exn) : Run World A := λ w, (Raised e, w).

(** ** [cli] (main.py, lines 17-28) *)

(** [config['DEFAULT'][key]] for a configuration whose reads either return
    or find no key: [defaults] maps each key that is read successfully to
    the value the read returns (the value after [configparser] expanded
    it), and a key it does not hold raises KeyError.  The other ways a read
    can end (an interpolation error of [configparser]) are not in this
    type; [cli_reads] below leaves them open. *)
Definition config_get (defaults : gmap str str) (key : str) : outcome str :=
  match defaults !! key with
  | Some v => Returned v
  | None => Raised (KeyError key)
  end.

(** What [cli] leaves in [ctx.obj]. *)
Record ctx_obj : Type := { obj_hosts : list str; obj_user : str }.

(** [hosts] is the value of the option [--hosts]: [None] when it is not
    given.  [if hosts:] is false for [None] and for the empty string. *)
Definition cli (defaults : gmap str str) (hosts : option str)
  : outcome ctx_obj :=
  hosts ← match hosts with
          | Some (c :: h) => mret (split (lit ",") (c :: h))
          | Some [] | None =>
              s ← config_get defaults (lit "hosts"); mret (split_ws s)
          end;
  common ← config_get defaults (lit "common");
  let obj_hosts := map (λ h, join (lit ".") [h; common]) hosts in
  user ← config_get defaults (lit "user");
  mret {| obj_hosts := obj_hosts; obj_user := user |}.

(** Lines 21-28 again, for any configuration that [config.read] (line 20)
    has read: [read key] is what evaluating [config['DEFAULT'][key]] gives,
    the value or the exception it raises, of whatever kind.  The reads are
    made in the order of the lines 24, 25 and 28, and the first exception
    ends [cli]. *)
Definition cli_reads {E : Type} (read : str → E + str) (hosts : option str)
  : E + ctx_obj :=
  match
    match hosts with
    | Some (c :: h) => inr (split (lit ",") (c :: h))
    | Some [] | None =>
        match read (lit "hosts") with
        | inl e => inl e
        | inr s => inr (split_ws s)
        end
    end
  with
  | inl e => inl e
  | inr hosts =>
      match read (lit "common") with
      | inl e => inl e
      | inr common =>
          let obj_hosts := map (λ h, join (lit ".") [h; common]) hosts in
          match read (lit "user") with
          | inl e => inl e
          | inr user => inr {| obj_hosts := obj_hosts; obj_user := user |}
          end
      end
  end.

(** ** [check_gpus] (main.py, lines 46-60) *)

Definition gpu_field_names : list str :=
  [ lit "INDEX"; lit "UTIL (%)"; lit "TEMP (" ++ DEGREE ++ lit "C)";
    lit "USED (MiB)"; lit "TOTAL (MiB)" ].

(** Line 59: [{k: v for k, v in zip(field_names, line)}]. *)
Definition gpu_record (line : list str) : record :=
  dict_of (zip gpu_field_names line).

(** Lines 56-59: the records of one host, from its standard output. *)
Definition check_gpus_parse (stdout : str) : list record :=
  let result := droplast (map (split (lit ", ")) (split NL stdout)) in
  map gpu_record result.

(** The order [sorted] puts on the items of [results] (host and standard
    output): by host; the hosts of a dict are distinct, so the second
    components are never compared. *)
Definition item_le (a b : str * str) : Prop := str_le a.1 b.1.

#[global] Instance item_le_dec : RelDecision item_le.
Proof. intros a b. unfold item_le. apply _. Defined.

(** Lines 54-60: [data], from the items of [results]. *)
Definition check_gpus_data (results : dict str) : dict (list record) :=
  foldl (λ data item, dict_set data item.1 (check_gpus_parse item.2)) []
        (merge_sort item_le results).

(** ** [docker ps] (main.py, lines 111-153) *)

Definition ps_field_names : list str :=
  [ lit "ID"; lit "Image"; lit "Command"; lit "RunningFor"; lit "Status";
    lit "Ports"; lit "Names" ].

(** Line 144: the command of the secondary call. *)
Definition inspect_command (con_id : str) : str :=
  lit "docker inspect --format " ++ DQUOTE ++ lit "{{.Config.Env}}"
    ++ DQUOTE ++ lit " " ++ con_id.

Definition ENV_KEY : str := lit "NVIDIA_VISIBLE_DEVICES=".

(** The part of [s] after the prefix [p], when [s] starts with [p]. *)
Fixpoint strip_prefix (p s : str) : option str :=
  match p, s with
  | [], _ => Some s
  | _ :: _, [] => None
  | a :: p', b :: s' => if (a =? b)%N then strip_prefix p' s' else None
  end.

(** The longest prefix of [s] made of [\d] characters: what the greedy
    [\d+] consumes (nothing follows it in the pattern, so there is no
    backtracking). *)
Fixpoint digit_run (s : str) : str :=
  match s with
  | c :: s' => if isdigit c then c :: digit_run s' else []
  | [] => []
  end.

(** Group 1 of a match of [NVIDIA_VISIBLE_DEVICES=(all|\d+)] that starts at
    the first character of [s]: the alternative [all] is tried first. *)
Definition match_here (s : str) : option str :=
  match strip_prefix ENV_KEY s with
  | None => None
  | Some rest =>
      if startswith (lit "all") rest then Some (lit "all")
      else match digit_run rest with
           | [] => None
           | ds => Some ds
           end
  end.

(** [re.search(pattern, s)]: the match at the leftmost position that has
    one; its group 1. *)
Fixpoint re_search (s : str) : option str :=
  match match_here s with
  | Some g => Some g
  | None => match s with
            | [] => None
            | _ :: s' => re_search s'
            end
  end.

(** Lines 147-149: [match.group(1) if match else '']. *)
Definition gpu_of_env (stdout : str) : str :=
  match re_search stdout with
  | Some g => g
  | None => []
  end.

(** The values the specification names for the variable: the literal
    [all], or a non-negative integer string (a non-empty run of decimal
    digits). *)
Definition env_value (value : str) : Prop :=
  value = lit "all" ∨ (value ≠ [] ∧ Forall (λ c, isdigit c = true) value).

Section Remote.

Context {World : Type}.

(** [connection.run(command, hide=True).stdout], for the connection to
    [host]; the call raises when the remote command fails. *)
Variable connection_run : str → str → Run World str.

(** Lines 140-150: one container, from its line. *)
Definition ps_container (host line : str) : Run World record :=
  let values := split (lit ", ") line in
  match values with
  | [] => raise IndexError                       (* values[0] *)
  | con_id :: _ =>
      let container := dict_of (zip ps_field_names values) in
      result ← connection_run host (inspect_command con_id);
      mret (dict_set container (lit "GPU") (gpu_of_env result))
  end.

(** Lines 138-150: the loop over the lines, appending to [containers]. *)
Fixpoint ps_containers (host : str) (lines : list str)
  : Run World (list record) :=
  match lines with
  | [] => mret []
  | line :: lines' =>
      container ← ps_container host line;
      containers ← ps_containers host lines';
      mret (container :: containers)
  end.

(** Lines 136-152: the containers of one host, from its standard output. *)
Definition ps_parse (host stdout : str) : Run World (list record) :=
  let lines := droplast (split NL stdout) in
  match lines with
  | _ :: _ => ps_containers host lines
  | [] => mret []
  end.

(** Lines 134-153: [data], from the items of [results] in their order. *)
Fixpoint ps_data_from (data : dict (list record)) (items : dict str)
  : Run World (dict (list record)) :=
  match items with
  | [] => mret data
  | (connection, stdout) :: items' =>
      containers ← ps_parse connection stdout;
      ps_data_from (dict_set data connection containers) items'
  end.

Definition ps_data (results : dict str) : Run World (dict (list record)) :=
  ps_data_from [] results.

End Remote.

(** ** [run_group_command] (utils.py) *)

(** Modelled from the spec: the Remote Executor interface (spec, section 6)
    and the type CommandResult (section 3); [utils.py] is not in the source
    tree.  [execute(host, identity, command)] returns the captured output
    and an exit status, or fails with an error. *)
Inductive Execution : Type :=
| Completed (stdout stderr : str) (exit_status : Z)
| ExecError (description : str).

Inductive Failed : Type :=
| ExecutorError (description : str)
| NonZeroExit (exit_status : Z) (stderr : str).

Inductive CommandResult : Type :=
| Success (stdout stderr : str)
| Failure (error : Failed).

(** Modelled from the spec: section 4.1, the isolation of one host.  An
    executor error or a non-zero exit is captured as the host's Failure. *)
Definition settle (e : Execution) : CommandResult :=
  match e with
  | Completed out err 0 => Success out err
  | Completed out err status => Failure (NonZeroExit status err)
  | ExecError description => Failure (ExecutorError description)
  end.

(** Modelled from the spec: [run_group_command] of utils.py, the Fan-Out
    Dispatcher of sections 4.1 and 5.  The state of one call: the hosts
    whose execution has not finished yet, and the result collection, one
    slot per host. *)
Record Dispatch : Type :=
  { pending : gset str; slots : gmap str CommandResult }.

(** Modelled from the spec: section 4.1, one remote execution is issued per
    host of the set. *)
Definition dispatch_start (hosts : gset str) : Dispatch :=
  {| pending := hosts; slots := ∅ |}.

(** Modelled from the spec: sections 4.1 and 5, the execution on [host]
    finishes: its outcome, settled, is written into the slot of the host,
    and nothing else changes. *)
Definition host_finishes (execute : str → str → str → Execution)
    (identity command host : str) (d : Dispatch) : Dispatch :=
  {| pending := pending d ∖ {[host]};
     slots := <[host := settle (execute host identity command)]> (slots d) |}.

(** Modelled from the spec: section 5, the executions run concurrently and
    in no fixed order: any host that is still pending may be the next one
    to finish. *)
Inductive dispatch_step (execute : str → str → str → Execution)
    (identity command : str) : Dispatch → Dispatch → Prop :=
| step_finish d host :
    host ∈ pending d →
    dispatch_step execute identity command d
      (host_finishes execute identity command host d).

(** Modelled from the spec: section 4.1, the barrier: the call returns the
    result collection, and only when no host is pending. *)
Definition dispatch_join (d : Dispatch) : option (gmap str CommandResult) :=
  if decide (pending d = ∅) then Some (slots d) else None.

(** Modelled from the spec: one call of the dispatcher, run with the hosts
    finishing in the order of [schedule] (a host that is not pending
    cannot finish, so such an entry of the schedule is passed over).  The
    result is [None] when the call cannot return yet. *)
Definition dispatch (execute : str → str → str → Execution)
    (hosts : gset str) (identity command : str) (schedule : list str)
  : option (gmap str CommandResult) :=
  dispatch_join
    (foldl (λ d host,
              if decide (host ∈ pending d)
              then host_finishes execute identity command host d else d)
           (dispatch_start hosts) schedule).

(** ** [construct_table] (utils.py) *)

(** Modelled from the spec: the Table of section 3; [utils.py] is not in
    the source tree. *)
Record Table : Type :=
  { headers : list str; rows : list (list str); widths : list nat }.

(** Modelled from the spec: section 4.3, the hosts in sorted order. *)
Definition sorted_hosts (host_records : gmap str (list record)) : list str :=
  merge_sort str_le (elements (dom host_records)).

(** Modelled from the spec: section 4.3, the records of the hosts in sorted
    order, each host's records in their original order. *)
Definition records_in_order (host_records : gmap str (list record))
  : list record :=
  concat ((λ host, host_records !!! host) <$> sorted_hosts host_records).

(** Modelled from the spec: section 3, the fields of the records that are
    not declared, in the order they first appear; they become the trailing
    columns. *)
Definition extra_fields (field_set : list str) (records : list record)
  : list str :=
  foldl (λ seen k, if bool_decide (k ∈ field_set ++ seen) then seen
                   else seen ++ [k])
        [] (concat (dict_keys <$> records)).

(** Modelled from the spec: section 4.3, the record's value for a field or
    the empty string if absent. *)
Definition cell (r : record) (field : str) : str :=
  default [] (dict_get r field).

Definition table_row (columns : list str) (r : record) : list str :=
  cell r <$> columns.

(** Modelled from the spec: section 4.3, the column widths: a single pass
    over the header row and every emitted cell, keeping the maximal length
    seen in each column. *)
Definition widen (ws : list nat) (row : list str) : list nat :=
  zip_with Nat.max ws (length <$> row).

Definition column_widths (header_row : list str) (body : list (list str))
  : list nat :=
  foldl widen (length <$> header_row) body.

(** Modelled from the spec: [construct_table] of utils.py, the Table
    Reducer of section 4.3. *)
Definition construct_table (field_set : list str)
    (host_records : gmap str (list record)) : Table :=
  let records := records_in_order host_records in
  let columns := field_set ++ extra_fields field_set records in
  let body := table_row columns <$> records in
  {| headers := columns; rows := body;
     widths := column_widths columns body |}.

(** ** Command strings (main.py, lines 35-45, 120-130, 177, 189) *)

(** An [int] inside an f-string: its decimal digits, with a minus sign when
    negative. *)
Definition str_of_int (n : Z) : str :=
  lit (NilZero.string_of_int (Z.to_int n)).

(** Lines 35-45: the command of [check_gpus]. *)
Definition check_gpus_command : str :=
  lit "nvidia-smi " ++ lit "--format=csv,noheader,nounits "
    ++ lit "--query-gpu="
    ++ (lit "index," ++ lit "utilization.gpu," ++ lit "temperature.gpu,"
          ++ lit "memory.used," ++ lit "memory.total").

(** Line 120: the Go template of [docker ps]. *)
Definition go_template : str :=
  join (lit ", ") ((λ k, lit "{{." ++ k ++ lit "}}") <$> ps_field_names).

(** Lines 121-129: the list [command] before it is joined.  The option
    [--last] is an [int] or [None]; [if n_last_containers:] is false for
    [None] and for 0. *)
Definition ps_command_parts (all_containers : bool)
    (container_filters : list str) (n_last_containers : option Z)
    (latest_container : bool) : list str :=
  let command :=
    [lit "docker ps --format " ++ DQUOTE ++ go_template ++ DQUOTE] in
  let command :=
    if all_containers then command ++ [lit "--all"] else command in
  let command :=
    foldl (λ command container_filter,
             command ++ [lit "--filter " ++ container_filter])
          command container_filters in
  let command :=
    match n_last_containers with
    | Some n =>
        if (n =? 0)%Z then command
        else command ++ [lit "--last " ++ str_of_int n]
    | None => command
    end in
  if latest_container then command ++ [lit "--latest"] else command.

(** Line 130. *)
Definition ps_command (all_containers : bool) (container_filters : list str)
    (n_last_containers : option Z) (latest_container : bool) : str :=
  join (lit " ")
    (ps_command_parts all_containers container_filters n_last_containers
       latest_container).

(** Line 177: the command of [docker login]. *)
Definition login_command (username password : str) : str :=
  lit "docker login -u " ++ username ++ lit " -p " ++ password.

(** Line 189: the command of [docker pull]; [args] is [ctx.args], the
    trailing arguments click did not recognise. *)
Definition pull_command (image : str) (args : list str) : str :=
  join (lit " ") ([lit "docker pull " ++ image] ++ args).

(** ** Inputs of the end-to-end scenarios *)

(** Scenario A: the output of the GPU query on a host with one GPU. *)
Definition scenario_A_stdout : str := lit "0, 45, 60, 2048, 8192" ++ NL.

(** The same output without its final line feed. *)
Definition unterminated_stdout : str := lit "0, 45, 60, 2048, 8192".

(** Scenario B: one line of the container listing, and two outputs of the
    inspect command. *)
Definition scenario_B_line : str :=
  lit "abc123, nginx, nginx -g, 2 days, Up, 80/tcp, web1".

Definition env_all : str :=
  lit "[PATH=/usr/local/bin NVIDIA_VISIBLE_DEVICES=all LANG=C]".

Definition env_none : str := lit "[PATH=/usr/local/bin LANG=C]".

Definition env_two_devices : str := lit "NVIDIA_VISIBLE_DEVICES=0,1".

(** A remote end on which every inspect command prints [env_all]. *)
Definition inspect_all : str → str → Run unit str :=
  λ _ _ w, (Returned env_all, w).

(** Scenario C: three hosts, the connection to the second fails. *)
Definition scenario_C_hosts : gset str :=
  {[ lit "h1"; lit "h2"; lit "h3" ]}.

Definition scenario_C_execute (host identity command : str) : Execution :=
  if decide (host = lit "h2") then ExecError (lit "connection refused")
  else Completed (host ++ lit " ok") [] 0.

(** A configuration file. *)
Definition example_defaults : gmap str str :=
  {[ lit "hosts" := lit "alpha beta";
     lit "common" := lit "example.org";
     lit "user" := lit "ops" ]}.

(** Scenario A as host records: host X with one GPU, host Y with none. *)
Definition scenario_A_records : gmap str (list record) :=
  {[ lit "x.example.org" := check_gpus_parse scenario_A_stdout;
     lit "y.example.org" := check_gpus_parse [] ]}.


(** A remote end on which every command fails. *)
Definition inspect_fails : str → str → Run unit str :=
  λ _ _ w, (Raised (RemoteFailure (lit "exit 1")), w).

(** A remote end that counts the commands it has run. *)
Definition inspect_counting : str → str → Run nat str :=
  λ _ _ n, (Returned env_all, S n).

(** The results of [check_gpus] on two hosts, out of order. *)
Definition example_results : dict str :=
  [ (lit "y.example.org", []); (lit "x.example.org", scenario_A_stdout) ].


(** * Properties *)

(** ** The string library *)

Section SplitFacts.

Lemma startswith_single c x s :
  startswith [c] (x :: s) = bool_decide (c = x).
Proof.
  simpl. rewrite andb_true_r.
  destruct (N.eqb_spec c x);
    [by rewrite bool_decide_true | by rewrite bool_decide_false].
Qed.

Lemma split_go_nonempty sep k s : split_go sep k s ≠ [].
Proof.
  revert k. induction s as [|c s IH]; intros k; simpl; [done|].
  destruct k; [|apply IH].
  destruct (startswith sep (c :: s)); [done|].
  destruct (split_go sep 0 s); done.
Qed.

Lemma split_nonempty sep s : split sep s ≠ [].
Proof. apply split_go_nonempty. Qed.

(** One-character separators: a string without the separator is a single
    piece, and the pieces of [a ++ c :: b] are those of [a] followed by
    those of [b]. *)
Lemma split_char_absent c t : c ∉ t → split [c] t = [t].
Proof.
  unfold split. induction t as [|x t IH]; intros Hc; [done|].
  cbn [split_go]. rewrite startswith_single, bool_decide_false.
  - rewrite IH; [done|]. intros ?. apply Hc. by right.
  - intros ->. apply Hc. by left.
Qed.

Lemma split_char_app c a b :
  split [c] (a ++ c :: b) = split [c] a ++ split [c] b.
Proof.
  unfold split. induction a as [|x a IH].
  - cbn [app split_go]. by rewrite startswith_single, bool_decide_true.
  - rewrite <-app_comm_cons. cbn [split_go].
    rewrite !startswith_single. case_bool_decide.
    + cbn [length Nat.sub]. by rewrite IH.
    + rewrite IH. pose proof (split_go_nonempty [c] 0 a).
      destruct (split_go [c] 0 a); done.
Qed.

Lemma droplast_snoc {A} (l : list A) x : droplast (l ++ [x]) = l.
Proof.
  unfold droplast. rewrite length_app. simpl.
  replace (length l + 1 - 1) with (length l) by lia.
  by rewrite take_app_length.
Qed.

Lemma droplast_singleton {A} (x : A) : droplast [x] = [].
Proof. done. Qed.

Lemma lines_terminated body :
  droplast (split NL (body ++ NL)) = split NL body.
Proof.
  unfold NL. rewrite split_char_app. apply droplast_snoc.
Qed.

Lemma lines_unterminated body tail :
  10%N ∉ tail → droplast (split NL (body ++ NL ++ tail)) = split NL body.
Proof.
  intros H. unfold NL. cbn [app]. rewrite split_char_app.
  rewrite (split_char_absent _ _ H). apply droplast_snoc.
Qed.

Lemma lines_no_newline tail : 10%N ∉ tail → droplast (split NL tail) = [].
Proof. intros H. unfold NL. by rewrite (split_char_absent _ _ H). Qed.

Lemma droplast_fmap {A B} (f : A → B) (l : list A) :
  droplast (f <$> l) = f <$> droplast l.
Proof. unfold droplast. by rewrite length_fmap, fmap_take. Qed.

End SplitFacts.

(** ** Dicts *)

Section DictFacts.

Context {V : Type}.
Implicit Types (d : dict V) (k : str) (v : V).

Lemma dict_set_fresh d k v : k ∉ dict_keys d → dict_set d k v = d ++ [(k, v)].
Proof.
  unfold dict_keys. induction d as [|[k' v'] d IH]; intros Hk; [done|].
  simpl. rewrite decide_False.
  - rewrite IH; [done|]. intros ?. apply Hk. simpl. by right.
  - intros ->. apply Hk. simpl. by left.
Qed.

Lemma dict_set_keys_fresh d k v :
  k ∉ dict_keys d → dict_keys (dict_set d k v) = dict_keys d ++ [k].
Proof.
  intros H. rewrite dict_set_fresh by done. unfold dict_keys.
  by rewrite fmap_app.
Qed.

Lemma dict_set_keys_present d k v :
  k ∈ dict_keys d → dict_keys (dict_set d k v) = dict_keys d.
Proof.
  unfold dict_keys. induction d as [|[k' v'] d IH]; intros Hk.
  - by apply elem_of_nil in Hk.
  - simpl. case_decide; [done|]. simpl. f_equal. apply IH.
    simpl in Hk. apply elem_of_cons in Hk as [->|]; done.
Qed.

Lemma dict_of_acc (acc pairs : list (str * V)) :
  NoDup ((acc ++ pairs).*1) →
  foldl (λ d kv, dict_set d kv.1 kv.2) acc pairs = acc ++ pairs.
Proof.
  revert acc. induction pairs as [|[k v] pairs IH]; intros acc Hnd; simpl.
  - by rewrite app_nil_r.
  - rewrite dict_set_fresh.
    + rewrite IH; rewrite <-app_assoc; done.
    + rewrite fmap_app in Hnd. apply NoDup_app in Hnd as (_ & Hd & _).
      intros Hin. apply (Hd k Hin). simpl. by left.
Qed.

(** A comprehension over pairs with distinct keys is those pairs. *)
Lemma dict_of_NoDup (pairs : list (str * V)) :
  NoDup pairs.*1 → dict_of pairs = pairs.
Proof. intros H. unfold dict_of. by rewrite dict_of_acc. Qed.

Lemma dict_get_app_fresh d k v k' :
  k' ≠ k → dict_get (d ++ [(k, v)]) k' = dict_get d k'.
Proof.
  intros Hne. induction d as [|[k0 v0] d IH]; simpl.
  - by rewrite decide_False.
  - case_decide; done.
Qed.

Lemma dict_get_None d k : k ∉ dict_keys d → dict_get d k = None.
Proof.
  unfold dict_keys. induction d as [|[k0 v0] d IH]; intros H; [done|].
  simpl. rewrite decide_False.
  - apply IH. intros ?. apply H. simpl. by right.
  - intros ->. apply H. simpl. by left.
Qed.

End DictFacts.

Lemma fst_zip_take {A B} (l : list A) (k : list B) :
  (zip l k).*1 = take (length k) l.
Proof.
  revert k. induction l as [|x l IH]; intros [|y k]; simpl; try done.
  by rewrite IH.
Qed.

Lemma zip_take_l {A B} (l : list A) (k : list B) :
  zip l k = zip (take (length k) l) k.
Proof.
  revert k. induction l as [|x l IH]; intros [|y k]; simpl; try done.
  by rewrite <-IH.
Qed.

Lemma NoDup_take {A} (l : list A) n : NoDup l → NoDup (take n l).
Proof.
  intros H. rewrite <-(take_drop n l) in H. by apply NoDup_app in H as (? & _).
Qed.

Lemma gpu_field_names_NoDup : NoDup gpu_field_names.
Proof. apply (bool_decide_unpack _). vm_compute. exact I. Qed.

Lemma ps_field_names_NoDup : NoDup (ps_field_names ++ [lit "GPU"]).
Proof. apply (bool_decide_unpack _). vm_compute. exact I. Qed.

(** The comprehension of line 59 and of line 142: the declared names are
    distinct, so the record is the positional pairing itself. *)
Lemma zip_record (names values : list str) :
  NoDup names → dict_of (zip names values) = zip names values.
Proof.
  intros H. apply dict_of_NoDup. rewrite fst_zip_take. by apply NoDup_take.
Qed.

(** ** The parsers *)

Section ParserFacts.

Context {World : Type} (connection_run : str → str → Run World str).

Lemma GPU_not_declared : lit "GPU" ∉ ps_field_names.
Proof.
  pose proof ps_field_names_NoDup as H.
  apply NoDup_app in H as (_ & H & _). intros Hin. apply (H _ Hin). by left.
Qed.

Lemma ps_names_NoDup : NoDup ps_field_names.
Proof. pose proof ps_field_names_NoDup as H. by apply NoDup_app in H as (? & _). Qed.

(** What lines 140-150 compute for one line: the positional pairing of the
    declared names with the groups, then the key GPU; the only exception is
    the one the secondary call raises. *)
Lemma ps_container_spec host line w :
  ps_container connection_run host line w =
  let values := split (lit ", ") line in
  match connection_run host (inspect_command (default [] (head values))) w with
  | (Returned out, w') =>
      (Returned (zip ps_field_names values ++ [(lit "GPU", gpu_of_env out)]), w')
  | (Raised e, w') => (Raised e, w')
  end.
Proof.
  unfold ps_container. cbn zeta.
  pose proof (split_nonempty (lit ", ") line) as Hne.
  destruct (split (lit ", ") line) as [|con_id values] eqn:E; [done|].
  unfold mbind, Run_bind. cbn [head default]. change (id con_id) with con_id.
  destruct (connection_run host (inspect_command con_id) w) as [[out|e] w'];
    [|done].
  unfold mret, Run_ret. do 2 f_equal.
  rewrite zip_record by apply ps_names_NoDup.
  apply dict_set_fresh. unfold dict_keys. rewrite fst_zip_take.
  intros Hin. apply GPU_not_declared. by eapply subseteq_take.
Qed.

Lemma ps_parse_lines host stdout :
  ps_parse connection_run host stdout =
  ps_containers connection_run host (droplast (split NL stdout)).
Proof. unfold ps_parse. by destruct (droplast (split NL stdout)). Qed.

End ParserFacts.

Lemma check_gpus_parse_lines stdout :
  check_gpus_parse stdout =
  (λ line, zip gpu_field_names (split (lit ", ") line))
    <$> droplast (split NL stdout).
Proof.
  unfold check_gpus_parse. cbn zeta.
  change (map (split (lit ", ")) (split NL stdout))
    with (split (lit ", ") <$> split NL stdout).
  rewrite droplast_fmap.
  change (map gpu_record ?l) with (gpu_record <$> l).
  rewrite <-list_fmap_compose. apply list_fmap_ext. intros _ line _.
  simpl. unfold gpu_record. apply zip_record, gpu_field_names_NoDup.
Qed.

(** C2: when the output of the GPU query ends with a line terminator, the
    parse discards exactly the empty piece after it and yields one record
    per remaining line, pairing the declared names with the groups that
    splitting on comma and space gives; the empty output yields no record,
    and the output of scenario A yields one record with its five values. *)
Theorem check_gpus_parse_terminated :
  (∀ body : str,
     split NL (body ++ NL) = split NL body ++ [[]]
     ∧ check_gpus_parse (body ++ NL) =
       (λ line, zip gpu_field_names (split (lit ", ") line)) <$> split NL body)
  ∧ check_gpus_parse [] = []
  ∧ check_gpus_parse scenario_A_stdout =
    [ [ (lit "INDEX", lit "0"); (lit "UTIL (%)", lit "45");
        (lit "TEMP (" ++ DEGREE ++ lit "C)", lit "60");
        (lit "USED (MiB)", lit "2048"); (lit "TOTAL (MiB)", lit "8192") ] ].
Proof.
  split; [|split].
  - intros body. split.
    + unfold NL. apply split_char_app.
    + by rewrite check_gpus_parse_lines, lines_terminated.
  - reflexivity.
  - vm_compute. reflexivity.
Qed.

Lemma NoDup_drop_not_take {A} (l : list A) n x :
  NoDup l → x ∈ drop n l → x ∉ take n l.
Proof.
  intros Hnd Hd Ht. rewrite <-(take_drop n l) in Hnd.
  apply NoDup_app in Hnd as (_ & Hdis & _). by apply (Hdis x).
Qed.

(** The declared names a short line does not reach have no entry. *)
Lemma zip_trailing_absent (names values : list str) f :
  NoDup names → f ∈ drop (length values) names →
  dict_get (zip names values) f = None.
Proof.
  intros Hnd Hf. apply dict_get_None. unfold dict_keys.
  rewrite fst_zip_take. by apply NoDup_drop_not_take.
Qed.

Lemma drop_nonempty {A} (l : list A) n : n < length l → drop n l ≠ [].
Proof.
  intros Hn Hd. apply (f_equal length) in Hd.
  rewrite length_drop in Hd. simpl in Hd. lia.
Qed.

(** C5: a line with fewer groups than declared fields is still paired
    positionally with the field names, in [check_gpus] and in [docker ps]:
    the record holds the first names with the groups, the trailing declared
    fields have no entry, and the parse raises nothing (in [docker ps] the
    only exception is the one the secondary remote call raises). *)
Theorem short_line_zips_positionally (line : str) :
  let values := split (lit ", ") line in
  (length values < length gpu_field_names →
     gpu_record values = zip (take (length values) gpu_field_names) values
     ∧ drop (length values) gpu_field_names ≠ []
     ∧ ∀ f, f ∈ drop (length values) gpu_field_names →
            dict_get (gpu_record values) f = None)
  ∧ (length values < length ps_field_names →
     ∀ (World : Type) (run : str → str → Run World str) (host : str) (w : World),
     ∃ con_id, head values = Some con_id
       ∧ match run host (inspect_command con_id) w with
         | (Returned out, w') =>
             ∃ container,
               ps_container run host line w = (Returned container, w')
               ∧ container =
                 zip (take (length values) ps_field_names) values
                   ++ [(lit "GPU", gpu_of_env out)]
               ∧ drop (length values) ps_field_names ≠ []
               ∧ ∀ f, f ∈ drop (length values) ps_field_names →
                      dict_get container f = None
         | (Raised e, w') => ps_container run host line w = (Raised e, w')
         end).
Proof.
  intros values. split.
  - intros Hshort. unfold gpu_record.
    rewrite zip_record by apply gpu_field_names_NoDup.
    split; [apply zip_take_l|]. split; [by apply drop_nonempty|].
    intros f Hf. by apply zip_trailing_absent; [apply gpu_field_names_NoDup|].
  - intros Hshort World run host w.
    pose proof (split_nonempty (lit ", ") line) as Hne. fold values in Hne.
    destruct values as [|con_id rest] eqn:E; [done|].
    exists con_id. split; [done|].
    rewrite ps_container_spec. cbn zeta. fold values. rewrite E.
    cbn [head default]. change (id con_id) with con_id.
    destruct (run host (inspect_command con_id) w) as [[out|e] w']; [|done].
    eexists. split; [done|]. split; [by rewrite <-zip_take_l|].
    split; [by apply drop_nonempty|].
    intros f Hf. rewrite dict_get_app_fresh.
    + by apply zip_trailing_absent; [apply ps_names_NoDup|].
    + intros ->. apply GPU_not_declared. by eapply subseteq_drop.
Qed.

Lemma short_line_zips_positionally_witness :
  length (split (lit ", ") (lit "0, 45")) < length gpu_field_names
  ∧ gpu_record (split (lit ", ") (lit "0, 45")) =
    zip (take (length (split (lit ", ") (lit "0, 45"))) gpu_field_names)
        (split (lit ", ") (lit "0, 45")).
Proof.
  assert (H : length (split (lit ", ") (lit "0, 45")) < length gpu_field_names)
    by (vm_compute; lia).
  split; [exact H|].
  exact (proj1 (proj1 (short_line_zips_positionally (lit "0, 45")) H)).
Defined.

(** C8: both parsers drop the last piece after splitting on line feeds,
    whatever it holds: text after the last line feed never becomes a record,
    and a GPU output without its final line feed loses its only data line. *)
Theorem last_segment_dropped_unconditionally :
  (∀ body tail : str, 10%N ∉ tail →
     check_gpus_parse (body ++ NL ++ tail) = check_gpus_parse (body ++ NL))
  ∧ (∀ (World : Type) (run : str → str → Run World str) (host body tail : str),
       10%N ∉ tail →
       ps_parse run host (body ++ NL ++ tail) = ps_parse run host (body ++ NL))
  ∧ (∀ tail : str, 10%N ∉ tail → check_gpus_parse tail = [])
  ∧ (∀ (World : Type) (run : str → str → Run World str) (host tail : str)
       (w : World),
       10%N ∉ tail → ps_parse run host tail w = (Returned [], w))
  ∧ check_gpus_parse unterminated_stdout = [].
Proof.
  repeat split.
  - intros body tail H.
    by rewrite !check_gpus_parse_lines, lines_unterminated, lines_terminated.
  - intros World run host body tail H.
    by rewrite !ps_parse_lines, lines_unterminated, lines_terminated.
  - intros tail H. by rewrite check_gpus_parse_lines, lines_no_newline.
  - intros World run host tail w H.
    by rewrite ps_parse_lines, lines_no_newline.
Qed.

Section PsRecords.

Context {World : Type} (connection_run : str → str → Run World str).

(** Every container that [ps_containers] returns comes from one line, in
    order, with the output of that line's inspect command. *)
Lemma ps_containers_spec host lines w containers w' :
  ps_containers connection_run host lines w = (Returned containers, w') →
  Forall2 (λ line container, ∃ out,
             container = zip ps_field_names (split (lit ", ") line)
                           ++ [(lit "GPU", gpu_of_env out)])
          lines containers.
Proof.
  revert w containers w'.
  induction lines as [|line lines IH]; intros w containers w' H.
  - inversion H. constructor.
  - cbn [ps_containers] in H. unfold mbind, Run_bind in H.
    rewrite ps_container_spec in H. cbn zeta in H.
    destruct (connection_run host _ w) as [[out|e] w1]; [|done].
    destruct (ps_containers connection_run host lines w1)
      as [[cs|e] w2] eqn:E; [|done].
    inversion H; subst. constructor; [by exists out|by eapply IH].
Qed.

(** If no remote call raises, the parse of [docker ps] returns. *)
Lemma ps_containers_returns host lines w :
  (∀ command w0, ∃ out w1,
     connection_run host command w0 = (Returned out, w1)) →
  ∃ containers w', ps_containers connection_run host lines w
                   = (Returned containers, w').
Proof.
  intros Hrun. revert w. induction lines as [|line lines IH]; intros w.
  - by exists [], w.
  - cbn [ps_containers]. unfold mbind, Run_bind.
    rewrite ps_container_spec. cbn zeta.
    destruct (Hrun (inspect_command
                      (default [] (head (split (lit ", ") line)))) w)
      as (out & w1 & ->).
    destruct (IH w1) as (cs & w2 & ->). by eexists _, _.
Qed.

End PsRecords.

(** C9: every record of the container listing has the key GPU and no key
    outside the seven declared names and GPU: it pairs the declared names
    with the groups of one line, so groups beyond the seventh are dropped,
    and it has at most eight entries. *)
Theorem ps_record_keys {World : Type} (run : str → str → Run World str)
    (host stdout : str) (w w' : World) (containers : list record) :
  ps_parse run host stdout w = (Returned containers, w') →
  ∀ container, container ∈ containers →
    dict_keys container ⊆ ps_field_names ++ [lit "GPU"]
    ∧ lit "GPU" ∈ dict_keys container
    ∧ NoDup (dict_keys container)
    ∧ length container ≤ 8
    ∧ ∃ line out, line ∈ droplast (split NL stdout)
        ∧ container = zip ps_field_names (split (lit ", ") line)
                        ++ [(lit "GPU", gpu_of_env out)].
Proof.
  rewrite ps_parse_lines. intros H container Hin.
  apply ps_containers_spec in H.
  apply list_elem_of_lookup in Hin as [i Hi].
  destruct (Forall2_lookup_r _ _ _ _ _ H Hi) as (line & Hline & out & ->).
  assert (Hkeys : dict_keys (zip ps_field_names (split (lit ", ") line)
                               ++ [(lit "GPU", gpu_of_env out)])
                  = take (length (split (lit ", ") line)) ps_field_names
                      ++ [lit "GPU"]).
  { unfold dict_keys. by rewrite fmap_app, fst_zip_take. }
  rewrite Hkeys. repeat split.
  - intros f [Hf| ->%list_elem_of_singleton]%elem_of_app.
    + apply elem_of_app. left. by eapply subseteq_take.
    + apply elem_of_app. right. by left.
  - apply elem_of_app. right. by left.
  - pose proof ps_field_names_NoDup as Hnd.
    apply NoDup_app in Hnd as (Hn & Hdis & Hg).
    apply NoDup_app. split; [by apply NoDup_take|]. split; [|done].
    intros f Hf. apply Hdis. by eapply subseteq_take.
  - rewrite length_app, length_zip.
    assert (length ps_field_names = 7) as -> by reflexivity.
    cbn [length]. lia.
  - exists line, out. split; [|done]. by eapply list_elem_of_lookup_2.
Qed.

Lemma ps_record_keys_witness :
  ps_parse inspect_all (lit "alpha") (scenario_B_line ++ NL) ()
  = (Returned [ zip ps_field_names (split (lit ", ") scenario_B_line)
                  ++ [(lit "GPU", lit "all")] ], ())
  ∧ lit "GPU" ∈ dict_keys (zip ps_field_names (split (lit ", ") scenario_B_line)
                             ++ [(lit "GPU", lit "all")]).
Proof.
  assert (H : ps_parse inspect_all (lit "alpha") (scenario_B_line ++ NL) ()
              = (Returned [ zip ps_field_names
                              (split (lit ", ") scenario_B_line)
                              ++ [(lit "GPU", lit "all")] ], ()))
    by (vm_compute; reflexivity).
  split; [exact H|].
  exact (proj1 (proj2 (ps_record_keys inspect_all _ _ _ _ _ H _
                         (list_elem_of_here _ _)))).
Defined.

(** ** The pattern [NVIDIA_VISIBLE_DEVICES=(all|\d+)] *)

Section RegexFacts.

Lemma strip_prefix_Some p s rest :
  strip_prefix p s = Some rest ↔ s = p ++ rest.
Proof.
  revert s. induction p as [|a p IH]; intros s; simpl.
  - split; [by intros [= ->]|by intros ->].
  - destruct s as [|b s]; [done|].
    destruct (N.eqb_spec a b) as [->|Hne].
    + rewrite IH. split; [by intros ->|by intros [= ->]].
    + split; [done|]. intros [= ? _]. done.
Qed.

Lemma strip_prefix_app p rest : strip_prefix p (p ++ rest) = Some rest.
Proof. by apply strip_prefix_Some. Qed.

Lemma startswith_true p s : startswith p s = true ↔ ∃ rest, s = p ++ rest.
Proof.
  revert s. induction p as [|a p IH]; intros s; simpl.
  - split; [by exists s|done].
  - destruct s as [|b s]; [split; [done|by intros [? ?]]|].
    rewrite andb_true_iff, IH, N.eqb_eq. split.
    + intros [-> [rest ->]]. by exists rest.
    + intros [rest [= -> ->]]. eauto.
Qed.

Lemma digit_run_split s :
  ∃ rest, s = digit_run s ++ rest ∧ digit_run rest = [].
Proof.
  induction s as [|c s (rest & IH & Hrest)]; simpl; [by exists []|].
  destruct (isdigit c) eqn:Hc.
  - exists rest. by rewrite <-app_comm_cons, <-IH.
  - exists (c :: s). simpl. by rewrite Hc.
Qed.

Lemma digit_run_digits s : Forall (λ c, isdigit c = true) (digit_run s).
Proof.
  induction s as [|c s IH]; simpl; [constructor|].
  destruct (isdigit c) eqn:Hc; by constructor.
Qed.

Lemma digit_run_app ds rest :
  Forall (λ c, isdigit c = true) ds → digit_run rest = [] →
  digit_run (ds ++ rest) = ds.
Proof.
  intros Hds Hrest. induction Hds as [|c ds Hc _ IH]; simpl; [done|].
  by rewrite Hc, IH.
Qed.

Lemma match_here_Some s g :
  match_here s = Some g → ∃ post, s = ENV_KEY ++ g ++ post ∧ env_value g.
Proof.
  unfold match_here. destruct (strip_prefix ENV_KEY s) as [rest|] eqn:E; [|done].
  apply strip_prefix_Some in E as ->.
  destruct (startswith (lit "all") rest) eqn:Hall.
  - intros [= <-]. apply startswith_true in Hall as [post ->].
    exists post. split; [done|by left].
  - destruct (digit_run_split rest) as (post & Hsplit & _).
    pose proof (digit_run_digits rest) as Hd.
    destruct (digit_run rest) as [|c ds] eqn:Hrun; [done|].
    intros [= <-]. exists post. split; [by rewrite Hsplit at 1|by right].
Qed.

Lemma match_here_value value post :
  env_value value → is_Some (match_here (ENV_KEY ++ value ++ post)).
Proof.
  intros Hv. unfold match_here. rewrite strip_prefix_app.
  destruct (startswith (lit "all") (value ++ post)) eqn:Hall; [done|].
  destruct Hv as [->|[Hne Hd]].
  - exfalso. assert (startswith (lit "all") (lit "all" ++ post) = true) as H
      by (apply startswith_true; eauto). congruence.
  - destruct value as [|c value]; [done|].
    apply Forall_cons in Hd as [Hc _]. simpl. by rewrite Hc.
Qed.

Lemma re_search_Some s g :
  re_search s = Some g →
  ∃ pre post, s = pre ++ ENV_KEY ++ g ++ post ∧ env_value g.
Proof.
  induction s as [|c s IH]; cbn [re_search].
  - destruct (match_here []) eqn:E; [|done].
    intros [= <-]. apply match_here_Some in E as (post & ? & ?).
    by exists [], post.
  - destruct (match_here (c :: s)) eqn:E.
    + intros [= <-]. apply match_here_Some in E as (post & ? & ?).
      by exists [], post.
    + intros (pre & post & -> & ?)%IH. by exists (c :: pre), post.
Qed.

Lemma re_search_None s pre rest :
  re_search s = None → s = pre ++ rest → match_here rest = None.
Proof.
  revert pre. induction s as [|c s IH]; intros pre; cbn [re_search].
  - destruct (match_here []) eqn:E; [done|].
    intros _ Hs. symmetry in Hs. by apply app_nil in Hs as [_ ->].
  - destruct (match_here (c :: s)) eqn:E; [done|].
    intros Hs. destruct pre as [|c' pre]; simpl.
    + by intros <-.
    + intros [= -> ->]. by eapply IH.
Qed.

End RegexFacts.

(** C4: the GPU field is found by matching NVIDIA_VISIBLE_DEVICES=value,
    where value is [all] or a non-empty run of decimal digits: either the
    inspect output holds no such text and the field is the empty string, or
    the output holds the key followed by the field, and the field is such a
    value.  The extraction is a total function: it raises nothing.  In
    scenario B the field is [all] with the variable set and empty without. *)
Theorem gpu_of_env_extracts :
  (∀ stdout : str,
     (gpu_of_env stdout = []
      ∧ ¬ ∃ pre value post,
            stdout = pre ++ ENV_KEY ++ value ++ post ∧ env_value value)
     ∨ (∃ pre post,
          stdout = pre ++ ENV_KEY ++ gpu_of_env stdout ++ post
          ∧ env_value (gpu_of_env stdout)))
  ∧ gpu_of_env env_all = lit "all"
  ∧ gpu_of_env env_none = [].
Proof.
  split; [|split; vm_compute; reflexivity].
  intros stdout. unfold gpu_of_env.
  destruct (re_search stdout) as [g|] eqn:E.
  - right. by apply re_search_Some.
  - left. split; [done|]. intros (pre & value & post & Hs & Hv).
    pose proof (re_search_None _ _ _ E Hs) as Hnone.
    destruct (match_here_value value post Hv) as [g Hg]. congruence.
Qed.

(** The greedy digit run: after the key, a non-empty run of digits followed
    by something that is no digit is the whole group. *)
Lemma gpu_of_env_digit_prefix ds rest :
  ds ≠ [] → Forall (λ c, isdigit c = true) ds → digit_run rest = [] →
  gpu_of_env (ENV_KEY ++ ds ++ rest) = ds.
Proof.
  intros Hne Hds Hrest. unfold gpu_of_env.
  assert (match_here (ENV_KEY ++ ds ++ rest) = Some ds) as Hm.
  { unfold match_here. rewrite strip_prefix_app.
    destruct ds as [|c ds]; [done|].
    pose proof Hds as [Hc _]%Forall_cons.
    destruct (startswith (lit "all") ((c :: ds) ++ rest)) eqn:Hall.
    - apply startswith_true in Hall as [post Hall].
      injection Hall as -> _. by vm_compute in Hc.
    - by rewrite digit_run_app. }
  destruct (ENV_KEY ++ ds ++ rest); cbn [re_search]; by rewrite Hm.
Qed.

(** C10: for the device list [0,1] the GPU field is only the leading digit
    run [0], neither the whole value nor the empty string: the pattern
    takes [all] or the digits up to the first character that is no digit. *)
Theorem gpu_of_env_device_list :
  gpu_of_env env_two_devices = lit "0"
  ∧ gpu_of_env env_two_devices ≠ lit "0,1"
  ∧ gpu_of_env env_two_devices ≠ []
  ∧ ∀ ds rest : str,
      ds ≠ [] → Forall (λ c, isdigit c = true) ds → digit_run rest = [] →
      gpu_of_env (ENV_KEY ++ ds ++ rest) = ds.
Proof.
  assert (gpu_of_env env_two_devices = lit "0") as H
    by (vm_compute; reflexivity).
  rewrite H. repeat split; [by vm_compute..|].
  apply gpu_of_env_digit_prefix.
Qed.

(** ** The host list *)

Lemma join_dot h common : join (lit ".") [h; common] = h ++ lit "." ++ common.
Proof. done. Qed.

(** C7, as the specification states it, fails when the option is given with
    an empty value: [--hosts ''] is given, splitting it on commas yields the
    single short name [''], yet [cli] takes the configured default list. *)
Lemma cli_hosts_given_empty :
  ∃ ctx, cli example_defaults (Some []) = Returned ctx
    ∧ obj_hosts ctx = [lit "alpha.example.org"; lit "beta.example.org"]
    ∧ obj_hosts ctx
      ≠ (λ h, h ++ lit "." ++ lit "example.org") <$> split (lit ",") [].
Proof.
  eexists. split; [vm_compute; reflexivity|]. split; [done|].
  by vm_compute.
Qed.

(** C7, amended: when [--hosts] is given with a non-empty value, the value
    is split on commas; when it is absent or empty, the configured default
    list is split on whitespace; in both cases each short name gets the
    common domain suffix appended after a dot. *)
Theorem cli_host_list (defaults : gmap str str) (hosts : option str)
    (common user : str) :
  defaults !! lit "common" = Some common →
  defaults !! lit "user" = Some user →
  match hosts with
  | Some (c :: h) =>
      cli defaults hosts =
      Returned {| obj_hosts := (λ name, name ++ lit "." ++ common)
                                 <$> split (lit ",") (c :: h);
                  obj_user := user |}
  | Some [] | None =>
      ∀ names, defaults !! lit "hosts" = Some names →
        cli defaults hosts =
        Returned {| obj_hosts := (λ name, name ++ lit "." ++ common)
                                   <$> split_ws names;
                    obj_user := user |}
  end.
Proof.
  intros Hc Hu.
  assert (∀ l, cli defaults (Some l) =
    (hs ← match l with
          | _ :: _ => mret (split (lit ",") l)
          | [] => s ← config_get defaults (lit "hosts"); mret (split_ws s)
          end;
     cm ← config_get defaults (lit "common");
     us ← config_get defaults (lit "user");
     mret {| obj_hosts := map (λ h, join (lit ".") [h; cm]) hs;
             obj_user := us |})) as Hcli by (by intros []).
  destruct hosts as [[|c h]|].
  - intros names Hn. rewrite Hcli. unfold config_get. by rewrite Hn, Hc, Hu.
  - rewrite Hcli. unfold config_get. by rewrite Hc, Hu.
  - intros names Hn. unfold cli, config_get. by rewrite Hn, Hc, Hu.
Qed.

Lemma cli_host_list_witness :
  example_defaults !! lit "common" = Some (lit "example.org")
  ∧ example_defaults !! lit "user" = Some (lit "ops")
  ∧ cli example_defaults (Some (lit "gamma,delta")) =
    Returned {| obj_hosts := (λ name, name ++ lit "." ++ lit "example.org")
                               <$> split (lit ",") (lit "gamma,delta");
                obj_user := lit "ops" |}.
Proof.
  assert (example_defaults !! lit "common" = Some (lit "example.org")) as Hc
    by (vm_compute; reflexivity).
  assert (example_defaults !! lit "user" = Some (lit "ops")) as Hu
    by (vm_compute; reflexivity).
  split; [exact Hc|]. split; [exact Hu|].
  exact (cli_host_list example_defaults (Some (lit "gamma,delta")) _ _ Hc Hu).
Defined.

(** ** The dispatcher *)

Section Dispatcher.

Context (execute : str → str → str → Execution) (identity command : str).

(** A host that is pending leaves the pending set when it finishes. *)
Lemma size_pending_finishes host d :
  host ∈ pending d →
  size (pending d)
  = S (size (pending (host_finishes execute identity command host d))).
Proof.
  intros Hin. cbn [host_finishes pending].
  rewrite (union_difference_singleton_L host (pending d) Hin) at 1.
  rewrite size_union, size_singleton; [done|].
  intros x Hx Hx'. apply elem_of_difference in Hx' as [_ Hx']. done.
Qed.

(** What holds after [n] hosts have finished, in whatever order: the
    pending hosts are the ones without a slot, and every slot holds the
    settled outcome of its own host. *)
Lemma dispatch_run_inv hosts n d :
  nsteps (dispatch_step execute identity command) n (dispatch_start hosts) d →
  n + size (pending d) = size hosts
  ∧ pending d ⊆ hosts
  ∧ dom (slots d) = hosts ∖ pending d
  ∧ ∀ host result, slots d !! host = Some result →
      result = settle (execute host identity command).
Proof.
  revert d. induction n as [|n IH]; intros d Hrun.
  - inversion Hrun; subst. cbn [dispatch_start pending slots].
    split; [done|]. split; [done|]. split.
    + by rewrite dom_empty_L, difference_diag_L.
    + intros host result H. by rewrite lookup_empty in H.
  - apply nsteps_inv_r in Hrun as (d0 & Hrun & Hstep).
    destruct (IH _ Hrun) as (Hn & Hsub & Hdom & Hown).
    destruct Hstep as [d0 host Hin].
    split; [rewrite (size_pending_finishes host d0 Hin) in Hn; lia|].
    cbn [host_finishes pending slots]. split; [|split].
    + intros x Hx. apply elem_of_difference in Hx as [Hx _]. by apply Hsub.
    + rewrite dom_insert_L, Hdom. apply set_eq. intros x.
      rewrite elem_of_union, !elem_of_difference, elem_of_singleton.
      destruct (decide (x = host)) as [->|Hne].
      * split; [|by left]. intros _. split; [by apply Hsub|].
        intros [_ Hx]. by apply Hx.
      * split.
        -- intros [?|[Hx Hp]]; [done|]. split; [done|]. by intros [? _].
        -- intros [Hx Hp]. right. split; [done|]. intros Hp'. by apply Hp.
    + intros h result [[<- <-]|[_ Hh]]%lookup_insert_Some; [done|].
      by apply Hown.
Qed.

(** A call that returns has seen every host finish, and returns the
    mapping with one entry per host. *)
Lemma dispatch_joined hosts n d results :
  nsteps (dispatch_step execute identity command) n (dispatch_start hosts) d →
  dispatch_join d = Some results →
  n = size hosts ∧ dom results = hosts ∧ size results = size hosts
  ∧ ∀ host, host ∈ hosts →
      results !! host = Some (settle (execute host identity command)).
Proof.
  intros (Hn & _ & Hdom & Hown)%dispatch_run_inv. unfold dispatch_join.
  destruct (decide (pending d = ∅)) as [He|]; [|done]. intros [= <-].
  rewrite He, size_empty in Hn. rewrite He, difference_empty_L in Hdom.
  split; [lia|]. split; [done|]. split; [by rewrite <-size_dom, Hdom|].
  intros host Hin. rewrite <-Hdom in Hin.
  apply elem_of_dom in Hin as [result Hr]. by rewrite Hr, (Hown _ _ Hr).
Qed.

(** Whatever has happened so far, the hosts still pending can finish, and
    then the call returns. *)
Lemma dispatch_can_join d :
  ∃ d', rtc (dispatch_step execute identity command) d d' ∧ pending d' = ∅.
Proof.
  remember (size (pending d)) as n eqn:Hn. revert d Hn.
  induction n as [|n IH]; intros d Hn.
  - exists d. split; [done|]. by apply leibniz_equiv, size_empty_inv.
  - destruct (size_pos_elem_of (pending d)) as [host Hin]; [lia|].
    destruct (IH (host_finishes execute identity command host d))
      as (d' & Hrun & He).
    { rewrite (size_pending_finishes host d Hin) in Hn. by injection Hn. }
    exists d'. split; [|done]. eapply rtc_l; [by constructor|done].
Qed.

(** Finishing the hosts in the order of a schedule is a run of the
    dispatcher, after which the hosts the schedule names are not pending. *)
Lemma dispatch_schedule_run schedule d :
  let d' :=
    foldl (λ d host,
             if decide (host ∈ pending d)
             then host_finishes execute identity command host d else d)
          d schedule in
  rtc (dispatch_step execute identity command) d d'
  ∧ pending d' = pending d ∖ list_to_set schedule.
Proof.
  cbn zeta. revert d.
  induction schedule as [|h schedule IH]; intros d; cbn [foldl list_to_set].
  - split; [done|]. by rewrite difference_empty_L.
  - destruct (decide (h ∈ pending d)) as [Hin|Hout].
    + destruct (IH (host_finishes execute identity command h d)) as [Hrun ->].
      split; [eapply rtc_l; [by constructor|done]|].
      cbn [host_finishes pending]. apply set_eq. intros x.
      rewrite !elem_of_difference, elem_of_union. tauto.
    + destruct (IH d) as [Hrun ->]. split; [done|].
      apply set_eq. intros x.
      rewrite !elem_of_difference, elem_of_union, elem_of_singleton.
      split; [|tauto]. intros [Hx Hs]. split; [done|].
      intros [->|?]; done.
Qed.

End Dispatcher.

(** C1: in every run of the dispatcher, whatever the order in which the
    hosts finish and however many of the executions fail: after [n] hosts
    have finished, [n] slots are written and the others are pending; the
    call returns only when all [N] hosts have finished, and the mapping it
    returns has exactly the input hosts as keys, so [N] entries, the entry
    of each host being the settled outcome of its own execution.  The call
    can always go on to return, and it returns that mapping for every
    schedule in which each host finishes.  The hosts may be any set; a
    non-empty one in particular. *)
Theorem dispatch_complete (execute : str → str → str → Execution)
    (hosts : gset str) (identity command : str) :
  let step := dispatch_step execute identity command in
  let complete (n : nat) (results : gmap str CommandResult) :=
    n = size hosts ∧ dom results = hosts ∧ size results = size hosts
    ∧ ∀ host, host ∈ hosts →
        results !! host = Some (settle (execute host identity command)) in
  (∀ n d, nsteps step n (dispatch_start hosts) d →
     n + size (pending d) = size hosts
     ∧ dom (slots d) = hosts ∖ pending d
     ∧ (n < size hosts → dispatch_join d = None)
     ∧ ∀ results, dispatch_join d = Some results → complete n results)
  ∧ (∀ d, rtc step (dispatch_start hosts) d →
       ∃ d' results, rtc step d d' ∧ dispatch_join d' = Some results)
  ∧ (∀ schedule, hosts ⊆ list_to_set schedule →
       ∃ results,
         dispatch execute hosts identity command schedule = Some results
         ∧ complete (size hosts) results).
Proof.
  intros step complete. split; [|split].
  - intros n d Hrun.
    destruct (dispatch_run_inv _ _ _ _ _ _ Hrun) as (Hn & _ & Hdom & _).
    split; [done|]. split; [done|]. split.
    + intros Hlt. destruct (dispatch_join d) as [results|] eqn:Hj; [|done].
      destruct (dispatch_joined _ _ _ _ _ _ _ Hrun Hj) as (-> & _). lia.
    + intros results Hj. by eapply dispatch_joined.
  - intros d _.
    destruct (dispatch_can_join execute identity command d) as (d' & Hrun & He).
    exists d', (slots d'). split; [done|]. unfold dispatch_join.
    by rewrite decide_True.
  - intros schedule Hcover.
    destruct (dispatch_schedule_run execute identity command schedule
                (dispatch_start hosts)) as [Hrun Hp].
    unfold dispatch. cbn zeta in Hrun, Hp.
    set (d := foldl _ _ schedule) in *.
    assert (pending d = ∅) as He.
    { rewrite Hp. cbn [dispatch_start pending]. apply set_eq. intros x.
      rewrite elem_of_difference. split; [|by intros ?%elem_of_empty].
      intros [Hx Hs]. exfalso. apply Hs. by apply Hcover. }
    exists (slots d). unfold dispatch_join at 1. rewrite decide_True by done.
    split; [done|]. apply rtc_nsteps_1 in Hrun as [n Hrun].
    assert (dispatch_join d = Some (slots d)) as Hj
      by (unfold dispatch_join; by rewrite decide_True).
    destruct (dispatch_joined _ _ _ _ _ _ _ Hrun Hj) as (_ & ? & ? & ?).
    done.
Qed.

(** Scenario C: whatever the order in which the three hosts finish, the
    mapping has three entries and the second host's is a Failure; before
    the last host has finished, the call does not return. *)
Example scenario_C_dispatch :
  let run := dispatch scenario_C_execute scenario_C_hosts (lit "ops")
               (lit "uptime") in
  (∃ results, run [lit "h3"; lit "h1"; lit "h2"] = Some results
     ∧ size results = 3
     ∧ results !! lit "h1" = Some (Success (lit "h1 ok") [])
     ∧ results !! lit "h2"
       = Some (Failure (ExecutorError (lit "connection refused"))))
  ∧ run [lit "h3"; lit "h1"] = None.
Proof.
  split; [|by vm_compute].
  eexists. split; [by vm_compute|]. by vm_compute.
Qed.

(** ** The order on host names *)

Section StrOrder.

Lemma str_leb_cons x a y b :
  str_leb (x :: a) (y :: b) = true
  ↔ N.lt x y ∨ (x = y ∧ str_leb a b = true).
Proof. simpl. by rewrite orb_true_iff, andb_true_iff, N.ltb_lt, N.eqb_eq. Qed.

#[global] Instance str_le_total : Total str_le.
Proof.
  unfold Total, str_le. intros a. induction a as [|x a IH]; intros b.
  - by left.
  - destruct b as [|y b]; [by right|].
    rewrite !str_leb_cons.
    destruct (IH b); destruct (N.lt_total x y) as [?|[?|?]]; auto.
Qed.

#[global] Instance str_le_trans : Transitive str_le.
Proof.
  unfold Transitive, str_le. intros a. induction a as [|x a IH]; intros b c.
  - done.
  - destruct b as [|y b]; [done|]. destruct c as [|z c]; [done|].
    rewrite !str_leb_cons. intros [Hxy|[Hxy Hab]] [Hyz|[Hyz Hbc]].
    + left. lia.
    + left. lia.
    + left. lia.
    + right. split; [congruence|]. by eapply IH.
Qed.

#[global] Instance str_le_antisymm : AntiSymm (=) str_le.
Proof.
  unfold AntiSymm, str_le. intros a. induction a as [|x a IH]; intros b.
  - by destruct b.
  - destruct b as [|y b]; [done|]. rewrite !str_leb_cons.
    intros [Hxy|[Hxy Hab]] [Hyx|[Hyx Hba]]; try lia.
    subst y. f_equal. by apply IH.
Qed.

End StrOrder.

(** ** The table *)

Section TableFacts.

Implicit Types (host_records : gmap str (list record)) (field_set : list str).

Lemma sorted_hosts_sorted host_records :
  StronglySorted str_le (sorted_hosts host_records).
Proof. apply StronglySorted_merge_sort; apply _. Qed.

Lemma sorted_hosts_perm host_records :
  sorted_hosts host_records ≡ₚ elements (dom host_records).
Proof. apply merge_sort_Permutation. Qed.

Lemma sorted_hosts_NoDup host_records : NoDup (sorted_hosts host_records).
Proof. rewrite sorted_hosts_perm. apply NoDup_elements. Qed.

Lemma elem_of_sorted_hosts host_records h :
  h ∈ sorted_hosts host_records ↔ is_Some (host_records !! h).
Proof. by rewrite sorted_hosts_perm, elem_of_elements, elem_of_dom. Qed.

(** Taking a host out of a sorted list of distinct hosts leaves the sorted
    list of the others. *)
Lemma sorted_hosts_delete host_records h :
  is_Some (host_records !! h) →
  ∃ before after,
    sorted_hosts host_records = before ++ h :: after
    ∧ sorted_hosts (delete h host_records) = before ++ after
    ∧ (h ∉ before) ∧ (h ∉ after).
Proof.
  intros Hh. pose proof (proj2 (elem_of_sorted_hosts _ _) Hh) as Hin.
  apply list_elem_of_split in Hin as (before & after & E).
  pose proof (sorted_hosts_sorted host_records) as Hs.
  pose proof (sorted_hosts_NoDup host_records) as Hnd.
  pose proof (sorted_hosts_perm host_records) as Hp.
  rewrite E in Hs, Hnd, Hp.
  apply NoDup_app in Hnd as (_ & Hdis & [Hafter _]%NoDup_cons).
  assert (h ∉ before) as Hbefore.
  { intros ?. by apply (Hdis h); [|left]. }
  exists before, after. split; [done|]. split; [|done].
  apply (StronglySorted_unique str_le).
  - apply sorted_hosts_sorted.
  - apply StronglySorted_app in Hs as (Hba & Hb & [Hha Ha]%StronglySorted_cons).
    apply StronglySorted_app. split; [|done].
    intros x1 x2 H1 H2. apply Hba; [done|by right].
  - rewrite sorted_hosts_perm. apply (inj (h ::.)).
    rewrite Permutation_middle, Hp, dom_delete_L.
    rewrite <-elements_union_singleton.
    + apply elements_proper. intros x.
      rewrite elem_of_union, elem_of_difference, elem_of_singleton.
      apply elem_of_dom in Hh. split.
      * intros [Hx|[Hx _]]; [by subst x|done].
      * intros Hx. destruct (decide (x = h)); [by left|by right].
    + intros [_ Hn]%elem_of_difference. apply Hn. by apply elem_of_singleton.
Qed.

(** P5 on the records: a host with no record adds nothing to the sequence
    of records, and the other hosts keep their place. *)
Lemma records_in_order_delete_empty host_records h :
  host_records !! h = Some [] →
  records_in_order (delete h host_records) = records_in_order host_records.
Proof.
  intros Hh. unfold records_in_order.
  destruct (sorted_hosts_delete host_records h) as
    (before & after & -> & -> & Hb & Ha); [by eexists|].
  rewrite !fmap_app, fmap_cons, !concat_app, concat_cons.
  rewrite (lookup_total_correct _ _ _ Hh). cbn [app].
  f_equal; f_equal; apply list_fmap_ext; intros i x Hx;
    apply lookup_total_delete_ne; intros Heq; subst x;
    [apply Hb|apply Ha]; by eapply list_elem_of_lookup_2.
Qed.

Lemma length_table_row columns (r : record) :
  length (table_row columns r) = length columns.
Proof. unfold table_row. apply length_fmap. Qed.

Lemma table_row_lookup columns (r : record) j f :
  columns !! j = Some f →
  table_row columns r !! j = Some (default [] (dict_get r f)).
Proof. intros H. unfold table_row. by rewrite list_lookup_fmap, H. Qed.

Lemma fmap_concat_rows {A B} (f : A → B) (ls : list (list A)) :
  fmap (M:=list) f (concat ls) = concat (fmap (M:=list) (fmap (M:=list) f) ls).
Proof.
  induction ls as [|l ls IH]; [done|].
  cbn [concat fmap list_fmap]. by rewrite fmap_app, IH.
Qed.

End TableFacts.

(** C3: the rows of the table are the records of the hosts taken in sorted
    order of host name (every host of the mapping once), each host's records
    in their parse order; in the column of a declared field the cell is the
    record's value for that field, or the empty string when the record has
    none; a host with no record contributes no row, and the table is the one
    built without that host. *)
Theorem table_rows_by_sorted_host (field_set : list str)
    (host_records : gmap str (list record)) :
  let t := construct_table field_set host_records in
  let hosts := sorted_hosts host_records in
  StronglySorted str_le hosts
  ∧ NoDup hosts
  ∧ (∀ h, h ∈ hosts ↔ is_Some (host_records !! h))
  ∧ rows t =
    concat ((λ h, table_row (headers t) <$> host_records !!! h) <$> hosts)
  ∧ (∀ (r : record) j f, field_set !! j = Some f →
       headers t !! j = Some f
       ∧ table_row (headers t) r !! j
         = Some (match dict_get r f with Some v => v | None => [] end))
  ∧ (∀ h, host_records !! h = Some [] →
       construct_table field_set (delete h host_records) = t).
Proof.
  intros t hosts. split; [apply sorted_hosts_sorted|].
  split; [apply sorted_hosts_NoDup|].
  split; [apply elem_of_sorted_hosts|]. split; [|split].
  - unfold t, construct_table. cbn [rows headers].
    unfold records_in_order. rewrite fmap_concat_rows.
    by rewrite <-list_fmap_compose.
  - intros r j f Hj.
    assert (headers t !! j = Some f) as Hh.
    { unfold t, construct_table. cbn [headers]. by apply lookup_app_l_Some. }
    split; [done|]. rewrite (table_row_lookup _ _ _ _ Hh).
    by destruct (dict_get r f).
  - intros h Hh. unfold t, construct_table.
    by rewrite records_in_order_delete_empty.
Qed.

(** ** Column widths *)

Section WidthFacts.

Lemma length_widen ws row :
  length row = length ws → length (widen ws row) = length ws.
Proof.
  intros H. unfold widen. rewrite length_zip_with, length_fmap. lia.
Qed.

Lemma widen_lookup ws row j w c :
  ws !! j = Some w → row !! j = Some c →
  widen ws row !! j = Some (Nat.max w (length c)).
Proof.
  intros Hw Hc. unfold widen.
  by rewrite lookup_zip_with, Hw, list_lookup_fmap, Hc.
Qed.

(** The single pass: after the rows of [body], the width of a column is at
    least what it was, at least the length of each cell of the column, and
    equal to one of these. *)
Lemma foldl_widen_spec body : ∀ ws j w0,
  (∀ row, row ∈ body → length row = length ws) →
  ws !! j = Some w0 →
  ∃ w, foldl widen ws body !! j = Some w
    ∧ w0 ≤ w
    ∧ (∀ row, row ∈ body → ∃ c, row !! j = Some c ∧ length c ≤ w)
    ∧ (w = w0 ∨ ∃ row c, row ∈ body ∧ row !! j = Some c ∧ w = length c).
Proof.
  induction body as [|row body IH]; intros ws j w0 Hlen Hj.
  - exists w0. cbn [foldl]. split; [done|]. split; [done|].
    split; [|by left]. intros row Hrow. by apply elem_of_nil in Hrow.
  - assert (length row = length ws) as Hrow by (apply Hlen; by left).
    assert (is_Some (row !! j)) as [c Hc].
    { apply lookup_lt_is_Some. rewrite Hrow. by eapply lookup_lt_Some. }
    destruct (IH (widen ws row) j (Nat.max w0 (length c))) as
      (w & Hw & Hge & Hcells & Hatt).
    + intros r Hr. rewrite length_widen by done. apply Hlen. by right.
    + by apply widen_lookup.
    + exists w. cbn [foldl]. split; [done|]. split; [lia|]. split.
      * intros r [->|Hr]%elem_of_cons; [|by apply Hcells].
        exists c. split; [done|lia].
      * destruct Hatt as [->|(r & c' & Hr & Hc' & ->)].
        -- destruct (Nat.max_spec w0 (length c)) as [[_ ->]|[_ ->]].
           ++ right. exists row, c. split; [by left|done].
           ++ by left.
        -- right. exists r, c'. split; [by right|done].
Qed.

End WidthFacts.

(** C6: in the table that [construct_table] builds, the width of every
    column is the maximum of the length of its header and of the lengths of
    all the cells of the column: it is at least each of them, and it is the
    length of the header or of one of the cells. *)
Theorem column_width_is_maximum (field_set : list str)
    (host_records : gmap str (list record)) (j : nat) (header : str) :
  let t := construct_table field_set host_records in
  headers t !! j = Some header →
  ∃ width, widths t !! j = Some width
    ∧ length header ≤ width
    ∧ (∀ row, row ∈ rows t →
         ∃ c, row !! j = Some c ∧ length c ≤ width)
    ∧ (width = length header
       ∨ ∃ row c, row ∈ rows t ∧ row !! j = Some c ∧ width = length c).
Proof.
  intros t Hj. unfold t, construct_table in *. cbn [headers rows widths] in *.
  unfold column_widths. apply foldl_widen_spec.
  - intros row (r & -> & _)%list_elem_of_fmap.
    by rewrite length_table_row, length_fmap.
  - by rewrite list_lookup_fmap, Hj.
Qed.

Lemma column_width_is_maximum_witness :
  headers (construct_table gpu_field_names scenario_A_records) !! 3
  = Some (lit "USED (MiB)")
  ∧ ∃ width,
      widths (construct_table gpu_field_names scenario_A_records) !! 3
      = Some width
      ∧ length (lit "USED (MiB)") ≤ width.
Proof.
  assert (headers (construct_table gpu_field_names scenario_A_records) !! 3
          = Some (lit "USED (MiB)")) as H by (vm_compute; reflexivity).
  split; [exact H|].
  destruct (column_width_is_maximum gpu_field_names scenario_A_records 3 _ H)
    as (width & Hw & Hge & _).
  exists width. by split.
Defined.

(** Scenario A, end to end: five headers, one row for host X with its five
    values, no row for host Y; each width is the longer of header and cell. *)
Example scenario_A_table :
  construct_table gpu_field_names scenario_A_records =
  {| headers := gpu_field_names;
     rows := [[lit "0"; lit "45"; lit "60"; lit "2048"; lit "8192"]];
     widths := [5; 8; 9; 10; 11] |}.
Proof. vm_compute. reflexivity. Qed.

(** The library functions on small inputs, with the values CPython gives. *)
Example split_examples :
  split (lit ",") [] = [[]]
  ∧ split (lit ",") (lit "a,,b") = [lit "a"; []; lit "b"]
  ∧ split (lit ", ") (lit "a, b, ") = [lit "a"; lit "b"; []]
  ∧ split (lit ", ") (lit ",  ") = [[]; lit " "]
  ∧ split_ws (lit " a  b" ++ NL) = [lit "a"; lit "b"]
  ∧ split_ws [] = [].
Proof. vm_compute. repeat split. Qed.

(** * Further properties of [main.py] *)

(** ** More on the string library *)

Section MoreSplitFacts.

(** Splitting on one character gives one piece more than there are
    occurrences of the character. *)
Lemma length_split_char c s :
  length (split [c] s) = S (length (filter (λ x, x = c) s)).
Proof.
  unfold split. induction s as [|x s IH]; [done|].
  cbn [split_go]. rewrite startswith_single.
  destruct (decide (x = c)) as [->|Hne].
  - rewrite bool_decide_true by done. rewrite filter_cons_True by done.
    cbn [length Nat.sub]. by rewrite IH.
  - rewrite bool_decide_false by done. rewrite filter_cons_False by done.
    pose proof (split_go_nonempty [c] 0 s) as Hs.
    destruct (split_go [c] 0 s) as [|piece pieces]; [done|].
    by rewrite <-IH.
Qed.

Lemma droplast_app_nonempty {A} (l k : list A) :
  k ≠ [] → droplast (l ++ k) = l ++ droplast k.
Proof.
  intros Hk. unfold droplast. rewrite length_app.
  destruct k as [|x k]; [done|]. cbn [length].
  replace (length l + S (length k) - 1) with (length l + length k) by lia.
  replace (S (length k) - 1) with (length k) by lia.
  by rewrite take_app_add.
Qed.

Lemma length_droplast {A} (l : list A) : length (droplast l) = length l - 1.
Proof. unfold droplast. rewrite length_take. lia. Qed.

(** [str.split()] returns words that are not empty and hold no whitespace,
    and nothing at all for a string of whitespace. *)
Lemma split_ws_go_words word s :
  Forall (λ c, isspace c = false) word →
  Forall (λ name, name ≠ [] ∧ Forall (λ c, isspace c = false) name)
         (split_ws_go word s).
Proof.
  revert word. induction s as [|c s IH]; intros word Hword; cbn [split_ws_go].
  - destruct word as [|x word]; [constructor|].
    constructor; [|constructor]. split.
    + intros H%(f_equal length). rewrite length_reverse in H. done.
    + by apply Forall_reverse.
  - destruct (isspace c) eqn:Hc.
    + destruct word as [|x word]; [by apply IH|].
      constructor; [|by apply IH]. split.
      * intros H%(f_equal length). rewrite length_reverse in H. done.
      * by apply Forall_reverse.
    + apply IH. by constructor.
Qed.

Lemma split_ws_words s :
  Forall (λ name, name ≠ [] ∧ Forall (λ c, isspace c = false) name)
         (split_ws s).
Proof. by apply split_ws_go_words. Qed.

Lemma split_ws_blank s : Forall (λ c, isspace c = true) s → split_ws s = [].
Proof.
  unfold split_ws. induction 1 as [|c s Hc _ IH]; [done|].
  cbn [split_ws_go]. by rewrite Hc.
Qed.

End MoreSplitFacts.

(** ** More on [cli] *)

Section CliFacts.

Implicit Types (defaults : gmap str str) (hosts : option str).

Lemma cli_explicit defaults c h :
  cli defaults (Some (c :: h)) =
  (common ← config_get defaults (lit "common");
   user ← config_get defaults (lit "user");
   mret {| obj_hosts := (λ name, name ++ lit "." ++ common)
                          <$> split (lit ",") (c :: h);
           obj_user := user |}).
Proof.
  unfold cli. cbn [mbind outcome_bind mret outcome_ret].
  by destruct (config_get defaults (lit "common")).
Qed.

Lemma cli_default defaults hosts :
  hosts = None ∨ hosts = Some [] →
  cli defaults hosts =
  (names ← config_get defaults (lit "hosts");
   common ← config_get defaults (lit "common");
   user ← config_get defaults (lit "user");
   mret {| obj_hosts := (λ name, name ++ lit "." ++ common)
                          <$> split_ws names;
           obj_user := user |}).
Proof.
  intros [->| ->]; unfold cli; cbn [mbind outcome_bind mret outcome_ret];
    destruct (config_get defaults (lit "hosts")); try done;
    by destruct (config_get defaults (lit "common")).
Qed.

Lemma config_get_Some defaults key v :
  defaults !! key = Some v → config_get defaults key = Returned v.
Proof. intros H. unfold config_get. by rewrite H. Qed.

Lemma config_get_None defaults key :
  defaults !! key = None → config_get defaults key = Raised (KeyError key).
Proof. intros H. unfold config_get. by rewrite H. Qed.

End CliFacts.

(** [cli] is [cli_reads] for the configurations whose reads return or find
    no key. *)
Lemma cli_reads_config_get (defaults : gmap str str) (hosts : option str) :
  cli_reads (λ key, match config_get defaults key with
                    | Returned v => inr v
                    | Raised e => inl e
                    end) hosts
  = match cli defaults hosts with
    | Returned ctx => inr ctx
    | Raised e => inl e
    end.
Proof.
  unfold cli, cli_reads, mbind, mret, outcome_bind, outcome_ret.
  destruct hosts as [[|c h]|];
    repeat (destruct (config_get defaults _); try done).
Qed.

(** X1: [cli] ends with an exception exactly when one of the reads of the
    configuration it makes raises, and then with the exception of the first
    such read in the order the code makes them: [hosts] (read only when
    [--hosts] is absent or empty), then [common], then [user]; the reads
    before it have returned.  When every read it makes returns, [cli]
    returns. *)
Theorem cli_reads_first_failure {E : Type} (read : str → E + str)
    (hosts : option str) :
  let keys :=
    match hosts with Some (_ :: _) => [] | _ => [lit "hosts"] end
      ++ [lit "common"; lit "user"] in
  match cli_reads read hosts with
  | inl e =>
      ∃ before key after,
        keys = before ++ key :: after ∧ read key = inl e
        ∧ ∀ k, k ∈ before → ∃ v, read k = inr v
  | inr ctx => ∀ k, k ∈ keys → ∃ v, read k = inr v
  end.
Proof.
  assert (Hcases : (∃ c h, hosts = Some (c :: h))
                   ∨ hosts = None ∨ hosts = Some []).
  { destruct hosts as [[|c h]|]; eauto. }
  unfold cli_reads.
  destruct Hcases as [(c & h & ->)|Hd].
  - cbn [app].
    destruct (read (lit "common")) as [e|common] eqn:Hc.
    { exists [], (lit "common"), [lit "user"].
      split; [done|]. split; [done|]. by intros k ?%elem_of_nil. }
    destruct (read (lit "user")) as [e|user] eqn:Hu.
    { exists [lit "common"], (lit "user"), [].
      split; [done|]. split; [done|].
      intros k ->%list_elem_of_singleton. eauto. }
    intros k [-> | ->%list_elem_of_singleton]%elem_of_cons; eauto.
  - assert (match hosts with Some (_ :: _) => [] | _ => [lit "hosts"] end
            = [lit "hosts"]) as -> by (by destruct Hd as [->| ->]).
    cbn [app].
    destruct Hd as [->| ->];
      (destruct (read (lit "hosts")) as [e|names] eqn:Hh;
       [exists [], (lit "hosts"), [lit "common"; lit "user"];
        split; [done|]; split; [done|]; by intros k ?%elem_of_nil|];
       destruct (read (lit "common")) as [e|common] eqn:Hc;
       [exists [lit "hosts"], (lit "common"), [lit "user"];
        split; [done|]; split; [done|];
        intros k ->%list_elem_of_singleton; eauto|];
       destruct (read (lit "user")) as [e|user] eqn:Hu;
       [exists [lit "hosts"; lit "common"], (lit "user"), [];
        split; [done|]; split; [done|];
        intros k [-> | ->%list_elem_of_singleton]%elem_of_cons; eauto|];
       intros k [->|[-> | ->%list_elem_of_singleton]%elem_of_cons]%elem_of_cons;
       eauto).
Qed.

(** X2: when [--hosts] is given with a non-empty value, [cli] does not read
    the key [hosts]: whatever that read would give, a value or an
    exception, the result of [cli] is the same. *)
Theorem cli_reads_explicit_hosts {E : Type} (read : str → E + str)
    (r : E + str) (c : N) (h : str) :
  cli_reads (λ key, if decide (key = lit "hosts") then r else read key)
    (Some (c :: h))
  = cli_reads read (Some (c :: h)).
Proof.
  unfold cli_reads.
  destruct (decide (lit "common" = lit "hosts")) as [H|_];
    [by vm_compute in H|].
  destruct (decide (lit "user" = lit "hosts")) as [H|_];
    [by vm_compute in H|].
  done.
Qed.

(** X3: with [--hosts] absent or empty, every host [cli] returns is a
    short name followed by a dot and the common suffix, where the short
    name is not empty and holds no whitespace; a configured list made only
    of whitespace (or empty) gives an empty host list without any error. *)
Theorem cli_default_names (defaults : gmap str str) (hosts : option str)
    (names common user : str) :
  hosts = None ∨ hosts = Some [] →
  defaults !! lit "hosts" = Some names →
  defaults !! lit "common" = Some common →
  defaults !! lit "user" = Some user →
  ∃ ctx, cli defaults hosts = Returned ctx
    ∧ (∀ host, host ∈ obj_hosts ctx →
         ∃ name, host = name ++ lit "." ++ common ∧ name ≠ []
           ∧ Forall (λ c, isspace c = false) name)
    ∧ (Forall (λ c, isspace c = true) names → obj_hosts ctx = []).
Proof.
  intros Hd Hh Hc Hu. rewrite (cli_default _ _ Hd).
  rewrite (config_get_Some _ _ _ Hh), (config_get_Some _ _ _ Hc),
    (config_get_Some _ _ _ Hu).
  eexists. split; [done|]. cbn [obj_hosts]. split.
  - intros host (name & -> & Hin)%list_elem_of_fmap.
    exists name. split; [done|].
    pose proof (split_ws_words names) as Hw.
    rewrite Forall_forall in Hw. by apply Hw.
  - intros Hblank. by rewrite split_ws_blank.
Qed.

Lemma cli_default_names_witness :
  ∃ ctx, cli example_defaults None = Returned ctx
    ∧ ∀ host, host ∈ obj_hosts ctx →
        ∃ name, host = name ++ lit "." ++ lit "example.org" ∧ name ≠ []
          ∧ Forall (λ c, isspace c = false) name.
Proof.
  destruct (cli_default_names example_defaults None
              (lit "alpha beta") (lit "example.org") (lit "ops"))
    as (ctx & Hctx & Hnames & _);
    [by left|by vm_compute|by vm_compute|by vm_compute|].
  by exists ctx.
Defined.

(** X4: with [--hosts] given and non-empty, [cli] returns one host more
    than the value has commas (so never an empty list), and an empty piece
    is not skipped: when the value ends with a comma, the last host is the
    bare suffix, a dot followed by the common domain. *)
Theorem cli_explicit_hosts_count (defaults : gmap str str) (c : N) (h : str)
    (common user : str) :
  defaults !! lit "common" = Some common →
  defaults !! lit "user" = Some user →
  ∃ ctx, cli defaults (Some (c :: h)) = Returned ctx
    ∧ length (obj_hosts ctx) = S (length (filter (λ x, x = 44%N) (c :: h)))
    ∧ (∀ v, c :: h = v ++ lit "," →
         last (obj_hosts ctx) = Some (lit "." ++ common)).
Proof.
  intros Hc Hu. rewrite cli_explicit.
  rewrite (config_get_Some _ _ _ Hc), (config_get_Some _ _ _ Hu).
  eexists. split; [done|]. cbn [obj_hosts]. split.
  - rewrite length_fmap. apply (length_split_char 44%N).
  - intros v ->. change (lit ",") with [44%N].
    rewrite split_char_app, fmap_app, last_app. done.
Qed.

Lemma cli_explicit_hosts_count_witness :
  ∃ ctx, cli example_defaults (Some (lit "gamma,")) = Returned ctx
    ∧ length (obj_hosts ctx) = 2
    ∧ last (obj_hosts ctx) = Some (lit ".example.org").
Proof.
  destruct (cli_explicit_hosts_count example_defaults 103%N (lit "amma,")
              (lit "example.org") (lit "ops"))
    as (ctx & Hctx & Hlen & Hlast); [by vm_compute|by vm_compute|].
  exists ctx. split; [exact Hctx|]. split; [exact Hlen|].
  exact (Hlast (lit "gamma") eq_refl).
Defined.

(** ** More on the parsers *)

Section MoreParserFacts.

Lemma length_ps_containers {World} (run : str → str → Run World str)
    host lines w containers w' :
  ps_containers run host lines w = (Returned containers, w') →
  length containers = length lines.
Proof.
  intros H%ps_containers_spec. symmetry. by eapply Forall2_length.
Qed.

Lemma length_lines stdout :
  length (droplast (split NL stdout))
  = length (filter (λ x, x = 10%N) stdout).
Proof.
  rewrite length_droplast. unfold NL. rewrite length_split_char. lia.
Qed.

Lemma lines_app a b :
  droplast (split NL (a ++ NL ++ b)) = split NL a ++ droplast (split NL b).
Proof.
  unfold NL. cbn [app]. rewrite split_char_app.
  apply droplast_app_nonempty, split_nonempty.
Qed.

(** Splitting on comma and space: a piece without comma is cut off at the
    separator that follows it. *)
Lemma split_comma_piece p rest :
  44%N ∉ p →
  split (lit ", ") (p ++ lit ", " ++ rest) = p :: split (lit ", ") rest.
Proof.
  change (lit ", ") with [44%N; 32%N].
  unfold split. induction p as [|x p IH]; intros Hp.
  - cbn [app split_go startswith]. by rewrite !N.eqb_refl.
  - assert (x ≠ 44%N) as Hx by (intros ->; apply Hp; by left).
    rewrite <-app_comm_cons. cbn [split_go startswith].
    destruct (N.eqb_spec 44 x) as [<-|_]; [done|]. cbn [andb].
    rewrite IH; [done|]. intros ?. apply Hp. by right.
Qed.

Lemma split_comma_absent p : 44%N ∉ p → split (lit ", ") p = [p].
Proof.
  change (lit ", ") with [44%N; 32%N].
  unfold split. induction p as [|x p IH]; intros Hp; [done|].
  assert (x ≠ 44%N) as Hx by (intros ->; apply Hp; by left).
  cbn [split_go startswith].
  destruct (N.eqb_spec 44 x) as [<-|_]; [done|]. cbn [andb].
  rewrite IH; [done|]. intros ?. apply Hp. by right.
Qed.

(** The round trip of one line: joining values that hold no comma with
    comma and space, then splitting, gives the values back. *)
Lemma split_join_comma values :
  values ≠ [] → Forall (λ v, 44%N ∉ v) values →
  split (lit ", ") (join (lit ", ") values) = values.
Proof.
  intros Hne Hv. induction Hv as [|v values Hv Hvs IH]; [done|].
  destruct values as [|v' values].
  - by apply split_comma_absent.
  - cbn [join]. rewrite split_comma_piece by done. f_equal. by apply IH.
Qed.

Lemma join_char_free c sep values :
  c ∉ sep → Forall (λ v, c ∉ v) values → c ∉ join sep values.
Proof.
  intros Hsep Hv. induction Hv as [|v values Hv Hvs IH].
  - by intros ?%elem_of_nil.
  - destruct values as [|v' values]; [done|]. cbn [join].
    rewrite !elem_of_app. intros [?|[?|?]]; done.
Qed.

End MoreParserFacts.

(** X5: each parser returns one record per line feed of the output,
    whatever the lines hold (an empty line gives a record too): the number
    of records of [check_gpus] is the number of line feeds, and so is the
    number of containers of [docker ps] whenever its parse returns. *)
Theorem one_record_per_line_feed (stdout : str) :
  length (check_gpus_parse stdout) = length (filter (λ x, x = 10%N) stdout)
  ∧ ∀ (World : Type) (run : str → str → Run World str) (host : str)
      (w w' : World) (containers : list record),
      ps_parse run host stdout w = (Returned containers, w') →
      length containers = length (filter (λ x, x = 10%N) stdout).
Proof.
  split.
  - by rewrite check_gpus_parse_lines, length_fmap, length_lines.
  - intros World run host w w' containers H. rewrite ps_parse_lines in H.
    by rewrite (length_ps_containers _ _ _ _ _ _ H), length_lines.
Qed.

(** X6: every record of [check_gpus] holds between one and five fields,
    the first declared names in order; the field INDEX is always there (for
    an empty line with the empty string as its value), and groups beyond
    the fifth are dropped. *)
Theorem check_gpus_record_shape (stdout : str) (r : record) :
  r ∈ check_gpus_parse stdout →
  ∃ n, 1 ≤ n ≤ 5
    ∧ dict_keys r = take n gpu_field_names
    ∧ length r = n
    ∧ is_Some (dict_get r (lit "INDEX")).
Proof.
  rewrite check_gpus_parse_lines.
  intros (line & -> & _)%list_elem_of_fmap.
  pose proof (split_nonempty (lit ", ") line) as Hne.
  destruct (split (lit ", ") line) as [|v values]; [done|].
  exists (Nat.min 5 (S (length values))).
  split; [split; [apply Nat.min_glb; lia|apply Nat.le_min_l]|]. split; [|split].
  - unfold dict_keys. rewrite fst_zip_take. cbn [length].
    assert (length gpu_field_names = 5) as Hlen by reflexivity.
    destruct (decide (S (length values) ≤ 5)).
    + by rewrite Nat.min_r by lia.
    + rewrite Nat.min_l by lia. by rewrite !take_ge by lia.
  - rewrite length_zip. by cbn [length].
  - by eexists.
Qed.

Lemma check_gpus_record_shape_witness :
  [(lit "INDEX", [])] ∈ check_gpus_parse NL
  ∧ ∃ n, 1 ≤ n ≤ 5 ∧ dict_keys [(lit "INDEX", @nil N)] = take n gpu_field_names.
Proof.
  assert ([(lit "INDEX", [])] ∈ check_gpus_parse NL) as H
    by (vm_compute; by left).
  split; [exact H|].
  destruct (check_gpus_record_shape NL _ H) as (n & Hn & Hk & _).
  by exists n.
Defined.

(** X7: the parse of [check_gpus] composes over complete lines: the
    records of an output cut after a line feed are the records of the first
    part followed by the records of the rest. *)
Theorem check_gpus_parse_app (a b : str) :
  check_gpus_parse (a ++ NL ++ b)
  = check_gpus_parse (a ++ NL) ++ check_gpus_parse b.
Proof.
  rewrite !check_gpus_parse_lines, lines_app, lines_terminated.
  by rewrite fmap_app.
Qed.

(** X8: the round trip of [check_gpus]: when every row has at least one
    value and no value holds a comma or a line feed, printing each row as
    its values joined by comma and space and ended by a line feed, then
    parsing, pairs the declared names with exactly those values, row by
    row. *)
Theorem check_gpus_parse_printed (table : list (list str)) :
  Forall (λ row, row ≠ []
                 ∧ Forall (λ v, 44%N ∉ v) row
                 ∧ Forall (λ v, 10%N ∉ v) row) table →
  check_gpus_parse (concat ((λ row, join (lit ", ") row ++ NL) <$> table))
  = zip gpu_field_names <$> table.
Proof.
  intros Htable. rewrite check_gpus_parse_lines.
  assert (droplast (split NL
            (concat ((λ row, join (lit ", ") row ++ NL) <$> table)))
          = join (lit ", ") <$> table) as ->.
  { induction Htable as [|row table (Hne & Hcomma & Hnl) _ IH]; [done|].
    cbn [fmap list_fmap concat]. rewrite <-app_assoc, lines_app, IH.
    rewrite (split_char_absent 10%N); [done|].
    apply join_char_free; [|done].
    by vm_compute; intros [[=]|[[=]|?%elem_of_nil]%elem_of_cons]%elem_of_cons. }
  rewrite <-list_fmap_compose. apply Forall_fmap_ext.
  eapply Forall_impl; [exact Htable|].
  intros row (Hne & Hcomma & _). cbn. by rewrite split_join_comma.
Qed.

Lemma check_gpus_parse_printed_witness :
  check_gpus_parse
    (concat ((λ row, join (lit ", ") row ++ NL)
               <$> [[lit "0"; lit "45"; lit "60"; lit "2048"; lit "8192"];
                    [lit "1"; lit "3"]]))
  = zip gpu_field_names
      <$> [[lit "0"; lit "45"; lit "60"; lit "2048"; lit "8192"];
           [lit "1"; lit "3"]].
Proof.
  apply check_gpus_parse_printed.
  apply (bool_decide_unpack _). vm_compute. exact I.
Defined.

(** ** [data] of [check_gpus] *)

Section GpuData.

#[global] Instance item_le_total : Total item_le.
Proof. intros a b. apply (total str_le). Qed.

#[global] Instance item_le_trans : Transitive item_le.
Proof. intros a b c. apply (transitivity (R:=str_le)). Qed.

Lemma StronglySorted_item_keys (items : dict str) :
  StronglySorted item_le items → StronglySorted str_le (dict_keys items).
Proof.
  unfold dict_keys. induction 1 as [|item items _ IH Hall]; [constructor|].
  cbn [fmap list_fmap]. constructor; [done|].
  apply Forall_fmap. by eapply Forall_impl.
Qed.

Lemma dict_get_elem {V} (d : dict V) k v :
  NoDup (dict_keys d) → (k, v) ∈ d → dict_get d k = Some v.
Proof.
  unfold dict_keys. induction d as [|[k0 v0] d IH]; intros Hnd Hin.
  - by apply elem_of_nil in Hin.
  - cbn [fmap list_fmap fst] in Hnd. apply NoDup_cons in Hnd as [Hk0 Hnd].
    cbn [dict_get]. apply elem_of_cons in Hin as [[= -> ->]|Hin].
    + by rewrite decide_True.
    + rewrite decide_False; [by apply IH|].
      intros ->. apply Hk0. apply list_elem_of_fmap. by exists (k, v).
Qed.

(** Storing under keys that are new and distinct appends the entries. *)
Lemma foldl_dict_set_fresh {V W} (f : V → W) (acc : dict W) (items : dict V) :
  NoDup (dict_keys acc ++ dict_keys items) →
  foldl (λ data item, dict_set data item.1 (f item.2)) acc items
  = acc ++ (prod_map id f <$> items).
Proof.
  unfold dict_keys. revert acc.
  induction items as [|[k v] items IH]; intros acc Hnd; cbn [foldl].
  - by rewrite app_nil_r.
  - cbn [fmap list_fmap fst] in Hnd.
    assert (k ∉ acc.*1) as Hk.
    { apply NoDup_app in Hnd as (_ & Hdis & _). intros Hin.
      apply (Hdis k Hin). by left. }
    cbn [fst snd]. rewrite (dict_set_fresh acc k (f v) Hk).
    rewrite IH.
    + by rewrite <-app_assoc.
    + rewrite fmap_app. cbn [fmap list_fmap fst]. by rewrite <-app_assoc.
Qed.

Lemma check_gpus_data_spec (results : dict str) :
  NoDup (dict_keys results) →
  check_gpus_data results
  = prod_map id check_gpus_parse <$> merge_sort item_le results.
Proof.
  intros Hnd. unfold check_gpus_data.
  rewrite (foldl_dict_set_fresh check_gpus_parse []); [done|].
  cbn [dict_keys fmap list_fmap app]. unfold dict_keys in *.
  by rewrite merge_sort_Permutation.
Qed.

Lemma dict_keys_prod_map {V W} (f : V → W) (items : dict V) :
  dict_keys (prod_map id f <$> items) = dict_keys items.
Proof.
  unfold dict_keys. rewrite <-list_fmap_compose.
  apply list_fmap_ext. by intros _ [k v] _.
Qed.

End GpuData.

(** X9: [data] of [check_gpus] holds every host of [results] exactly once,
    in sorted order of host name whatever the order of [results], and under
    each host the records parsed from that host's own output. *)
Theorem check_gpus_data_sorted (results : dict str) :
  NoDup (dict_keys results) →
  let data := check_gpus_data results in
  StronglySorted str_le (dict_keys data)
  ∧ dict_keys data ≡ₚ dict_keys results
  ∧ ∀ host stdout, (host, stdout) ∈ results →
      dict_get data host = Some (check_gpus_parse stdout).
Proof.
  intros Hnd data. unfold data. rewrite check_gpus_data_spec by done.
  rewrite dict_keys_prod_map. split; [|split].
  - apply StronglySorted_item_keys, StronglySorted_merge_sort; apply _.
  - unfold dict_keys. by rewrite merge_sort_Permutation.
  - intros host stdout Hin. apply dict_get_elem.
    + rewrite dict_keys_prod_map. unfold dict_keys in *.
      by rewrite merge_sort_Permutation.
    + apply list_elem_of_fmap. exists (host, stdout). split; [done|].
      by rewrite merge_sort_Permutation.
Qed.

Lemma check_gpus_data_sorted_witness :
  NoDup (dict_keys example_results)
  ∧ dict_keys (check_gpus_data example_results)
    = [lit "x.example.org"; lit "y.example.org"]
  ∧ StronglySorted str_le (dict_keys (check_gpus_data example_results)).
Proof.
  assert (NoDup (dict_keys example_results)) as H
    by (apply (bool_decide_unpack _); vm_compute; exact I).
  split; [exact H|]. split; [by vm_compute|].
  exact (proj1 (check_gpus_data_sorted example_results H)).
Defined.

(** ** More on [docker ps] *)

Section PsLoop.

Context {World : Type} (run : str → str → Run World str).

(** The loop over the lines composes: the lines of a second part are
    handled from the state the first part left, and only if it returned. *)
Lemma ps_containers_app host before after w :
  ps_containers run host (before ++ after) w =
  match ps_containers run host before w with
  | (Returned cs1, w1) =>
      match ps_containers run host after w1 with
      | (Returned cs2, w2) => (Returned (cs1 ++ cs2), w2)
      | (Raised e, w2) => (Raised e, w2)
      end
  | (Raised e, w1) => (Raised e, w1)
  end.
Proof.
  revert w. induction before as [|line before IH]; intros w.
  - cbn [app ps_containers]. unfold mret, Run_ret.
    destruct (ps_containers run host after w) as [[cs|e] w2]; reflexivity.
  - rewrite <-app_comm_cons. cbn [ps_containers]. unfold mbind, Run_bind.
    destruct (ps_container run host line w) as [[c|e] w0]; [|done].
    rewrite IH.
    destruct (ps_containers run host before w0) as [[cs1|e] w1]; [|done].
    unfold mret, Run_ret.
    destruct (ps_containers run host after w1) as [[cs2|e] w2]; reflexivity.
Qed.

Lemma ps_containers_raise host line after w e w' :
  ps_container run host line w = (Raised e, w') →
  ps_containers run host (line :: after) w = (Raised e, w').
Proof.
  intros H. cbn [ps_containers]. unfold mbind, Run_bind. by rewrite H.
Qed.

(** [data] is built item by item, from the state the items before left. *)
Lemma ps_data_from_app data before after w :
  ps_data_from run data (before ++ after) w =
  match ps_data_from run data before w with
  | (Returned data1, w1) => ps_data_from run data1 after w1
  | (Raised e, w1) => (Raised e, w1)
  end.
Proof.
  revert data w. induction before as [|[h out] before IH]; intros data w.
  - done.
  - rewrite <-app_comm_cons. cbn [ps_data_from]. unfold mbind, Run_bind.
    destruct (ps_parse run h out w) as [[cs|e] w0]; [|done]. apply IH.
Qed.

Lemma ps_data_from_spec items : ∀ data w result w',
  ps_data_from run data items w = (Returned result, w') →
  NoDup (dict_keys data ++ dict_keys items) →
  ∃ entries, result = data ++ entries
    ∧ Forall2 (λ item entry, entry.1 = item.1
                 ∧ ∃ w1 w2, ps_parse run item.1 item.2 w1
                            = (Returned entry.2, w2))
              items entries.
Proof.
  unfold dict_keys.
  induction items as [|[h out] items IH]; intros data w result w' H Hnd.
  - inversion H; subst. exists []. by rewrite app_nil_r.
  - cbn [ps_data_from] in H. unfold mbind, Run_bind in H.
    destruct (ps_parse run h out w) as [[cs|e] w0] eqn:E; [|done].
    cbn [fmap list_fmap fst] in Hnd.
    assert (h ∉ data.*1) as Hh.
    { apply NoDup_app in Hnd as (_ & Hdis & _). intros Hin.
      apply (Hdis h Hin). by left. }
    rewrite (dict_set_fresh data h cs Hh) in H.
    apply IH in H as (entries & -> & Hall).
    + exists ((h, cs) :: entries). rewrite <-app_assoc. split; [done|].
      constructor; [|done]. split; [done|]. by exists w, w0.
    + rewrite fmap_app. cbn [fmap list_fmap fst]. by rewrite <-app_assoc.
Qed.

End PsLoop.

Lemma lookup_zip_Some {A B} (l : list A) (k : list B) i x y :
  l !! i = Some x → k !! i = Some y → zip l k !! i = Some (x, y).
Proof.
  revert k i. induction l as [|a l IH]; intros [|b k] [|i]; try done.
  - by intros [= ->] [= ->].
  - cbn. apply IH.
Qed.

(** X10: in the command of [docker ps] the options follow the fixed
    beginning in this order: [--all] if asked, one [--filter] argument per
    filter in the order given, [--last n] only for an [n] that is given and
    not zero, [--latest] if asked; so [-n 0] gives the same command as no
    [-n]. *)
Theorem ps_command_options (all_containers : bool) (filters : list str)
    (n_last : option Z) (latest : bool) :
  ps_command_parts all_containers filters n_last latest
  = [lit "docker ps --format " ++ DQUOTE ++ go_template ++ DQUOTE]
      ++ (if all_containers then [lit "--all"] else [])
      ++ ((λ f, lit "--filter " ++ f) <$> filters)
      ++ match n_last with
         | Some n => if decide (n = 0%Z) then []
                     else [lit "--last " ++ str_of_int n]
         | None => []
         end
      ++ (if latest then [lit "--latest"] else [])
  ∧ ps_command all_containers filters (Some 0%Z) latest
    = ps_command all_containers filters None latest.
Proof.
  split; [|done]. unfold ps_command_parts. cbn zeta.
  assert (∀ (fs : list str) (command : list str),
    foldl (λ command f, command ++ [lit "--filter " ++ f]) command fs
    = command ++ ((λ f, lit "--filter " ++ f) <$> fs)) as Hfold.
  { induction fs as [|f fs IH]; intros command; cbn [foldl].
    - by rewrite app_nil_r.
    - rewrite IH. by rewrite <-app_assoc. }
  rewrite Hfold.
  destruct n_last as [n|]; [destruct (Z.eqb_spec n 0) as [->|Hn]|];
    [rewrite decide_True by done|rewrite decide_False by done|];
    destruct all_containers, latest; cbn [app];
    rewrite <-?app_assoc, ?app_nil_r; done.
Qed.

(** X11: the round trip of one line of [docker ps]: for values that hold
    no comma, the line that joins them with comma and space is parsed into
    the record pairing the declared names with exactly those values (then
    the key GPU), and the inspect command is run once, for the first value.
    The value of each declared field can be read back from the record. *)
Theorem ps_container_printed {World : Type} (run : str → str → Run World str)
    (host con_id : str) (values : list str) (out : str) (w w' : World) :
  head values = Some con_id →
  Forall (λ v, 44%N ∉ v) values →
  run host (inspect_command con_id) w = (Returned out, w') →
  ∃ container,
    ps_container run host (join (lit ", ") values) w = (Returned container, w')
    ∧ container = zip ps_field_names values ++ [(lit "GPU", gpu_of_env out)]
    ∧ ∀ i name v, ps_field_names !! i = Some name → values !! i = Some v →
        dict_get container name = Some v.
Proof.
  intros Hhead Hcomma Hrun.
  assert (values ≠ []) as Hne by (by destruct values).
  rewrite ps_container_spec. cbn zeta.
  rewrite (split_join_comma values Hne Hcomma), Hhead. cbn [default].
  change (id con_id) with con_id. rewrite Hrun.
  eexists. split; [done|]. split; [done|].
  intros i name v Hname Hv. apply dict_get_elem.
  - unfold dict_keys. rewrite fmap_app, fst_zip_take. cbn [fmap list_fmap fst].
    pose proof ps_field_names_NoDup as Hnd.
    apply NoDup_app in Hnd as (Hn & Hdis & Hg).
    apply NoDup_app. split; [by apply NoDup_take|]. split; [|done].
    intros f Hf. apply Hdis. by eapply subseteq_take.
  - apply elem_of_app. left. eapply list_elem_of_lookup_2.
    by apply lookup_zip_Some.
Qed.

Lemma ps_container_printed_witness :
  ∃ container,
    ps_container inspect_all (lit "alpha")
      (join (lit ", ") (split (lit ", ") scenario_B_line)) ()
    = (Returned container, ())
    ∧ dict_get container (lit "Names") = Some (lit "web1").
Proof.
  destruct (ps_container_printed inspect_all (lit "alpha") (lit "abc123")
              (split (lit ", ") scenario_B_line) env_all () ())
    as (container & Hc & _ & Hget).
  - by vm_compute.
  - apply (bool_decide_unpack _). vm_compute. exact I.
  - done.
  - exists container. split; [exact Hc|].
    apply (Hget 6); by vm_compute.
Defined.

(** X12: the first inspect call that raises ends the parse of [docker ps]
    with that exception: the containers of the lines before it are lost,
    and the lines after it are not inspected (the remote state is the one
    the failing call left). *)
Theorem ps_parse_first_failure {World : Type} (run : str → str → Run World str)
    (host stdout : str) (before after : list str) (line : str)
    (containers : list record) (e : exn) (w w1 w2 : World) :
  droplast (split NL stdout) = before ++ line :: after →
  ps_containers run host before w = (Returned containers, w1) →
  run host (inspect_command (default [] (head (split (lit ", ") line)))) w1
  = (Raised e, w2) →
  ps_parse run host stdout w = (Raised e, w2).
Proof.
  intros Hlines Hbefore Hrun.
  rewrite ps_parse_lines, Hlines, ps_containers_app, Hbefore.
  rewrite (ps_containers_raise run host line after w1 e w2); [done|].
  rewrite ps_container_spec. cbn zeta. by rewrite Hrun.
Qed.

Lemma ps_parse_first_failure_witness :
  ps_parse inspect_fails (lit "alpha")
    (scenario_B_line ++ NL ++ scenario_B_line ++ NL) ()
  = (Raised (RemoteFailure (lit "exit 1")), ()).
Proof.
  apply (ps_parse_first_failure inspect_fails _ _ [] [scenario_B_line]
           scenario_B_line [] _ () () ()).
  - by vm_compute.
  - done.
  - done.
Defined.

(** X13: when [docker ps] returns, [data] holds the hosts of [results] in
    the order of [results], one entry per host, each entry being the
    containers a parse of that host's output returned. *)
Theorem ps_data_hosts {World : Type} (run : str → str → Run World str)
    (results : dict str) (data : dict (list record)) (w w' : World) :
  NoDup (dict_keys results) →
  ps_data run results w = (Returned data, w') →
  dict_keys data = dict_keys results
  ∧ Forall2 (λ item entry, entry.1 = item.1
               ∧ ∃ w1 w2, ps_parse run item.1 item.2 w1
                          = (Returned entry.2, w2))
            results data.
Proof.
  intros Hnd H. unfold ps_data in H.
  apply ps_data_from_spec in H as (entries & -> & Hall); [|done].
  cbn [app]. split; [|done]. unfold dict_keys.
  induction Hall as [|item entry items entries [Hk _] _ IH]; [done|].
  cbn [fmap list_fmap]. rewrite Hk. f_equal. apply IH.
  cbn [fmap list_fmap] in Hnd. by apply NoDup_cons in Hnd as [_ ?].
Qed.

Lemma ps_data_hosts_witness :
  NoDup (dict_keys [(lit "beta", scenario_B_line ++ NL); (lit "alpha", [])])
  ∧ ∃ data w',
      ps_data inspect_counting
        [(lit "beta", scenario_B_line ++ NL); (lit "alpha", [])] 0
      = (Returned data, w')
      ∧ dict_keys data = [lit "beta"; lit "alpha"].
Proof.
  assert (NoDup (dict_keys [(lit "beta", scenario_B_line ++ NL);
                            (lit "alpha", @nil N)])) as Hnd
    by (apply (bool_decide_unpack _); vm_compute; exact I).
  split; [exact Hnd|].
  destruct (ps_data inspect_counting
              [(lit "beta", scenario_B_line ++ NL); (lit "alpha", [])] 0)
    as [[data|e] w'] eqn:E; [|by vm_compute in E].
  exists data, w'. split; [done|].
  exact (proj1 (ps_data_hosts inspect_counting _ data 0 w' Hnd E)).
Defined.

(** X14: a failure on one host fails [docker ps] as a whole: when the
    parse of a host raises, [data] is not returned at all, not even for the
    hosts already parsed, and the hosts after it are not parsed. *)
Theorem ps_data_first_failure {World : Type} (run : str → str → Run World str)
    (before after : dict str) (host stdout : str)
    (data1 : dict (list record)) (e : exn) (w w1 w2 : World) :
  ps_data run before w = (Returned data1, w1) →
  ps_parse run host stdout w1 = (Raised e, w2) →
  ps_data run (before ++ (host, stdout) :: after) w = (Raised e, w2).
Proof.
  unfold ps_data. intros Hbefore Hparse.
  rewrite ps_data_from_app, Hbefore. cbn [ps_data_from].
  unfold mbind, Run_bind. by rewrite Hparse.
Qed.

Lemma ps_data_first_failure_witness :
  ps_data inspect_fails
    ([(lit "alpha", [])] ++ (lit "beta", scenario_B_line ++ NL)
       :: [(lit "gamma", [])]) ()
  = (Raised (RemoteFailure (lit "exit 1")), ()).
Proof.
  apply (ps_data_first_failure inspect_fails [(lit "alpha", [])]
           [(lit "gamma", [])] (lit "beta") (scenario_B_line ++ NL)
           [(lit "alpha", [])] _ () () ()).
  - by vm_compute.
  - by vm_compute.
Defined.

(** ** The search for the device variable, once more *)

Lemma re_search_skip pre s :
  78%N ∉ pre → re_search (pre ++ s) = re_search s.
Proof.
  assert (ENV_KEY = 78%N :: tail ENV_KEY) as HK by reflexivity.
  induction pre as [|c pre IH]; intros Hpre; [done|].
  rewrite <-app_comm_cons. cbn [re_search].
  assert (match_here (c :: pre ++ s) = None) as ->.
  { unfold match_here. rewrite HK. cbn [strip_prefix].
    destruct (N.eqb_spec 78 c) as [<-|_]; [|done].
    exfalso. apply Hpre. by left. }
  apply IH. intros ?. apply Hpre. by right.
Qed.

(** X17: the search is not anchored and stops at the first match: text
    before the variable that holds no letter N does not change the value
    found, and after the name and [=] the three letters [all] are taken
    whatever follows them, so that a value such as [allocated] also gives
    [all]. *)
Theorem gpu_of_env_first_match (pre : str) :
  78%N ∉ pre →
  (∀ s, gpu_of_env (pre ++ s) = gpu_of_env s)
  ∧ ∀ post, gpu_of_env (pre ++ ENV_KEY ++ lit "all" ++ post) = lit "all".
Proof.
  intros Hpre.
  assert (∀ s, gpu_of_env (pre ++ s) = gpu_of_env s) as Hskip.
  { intros s. unfold gpu_of_env. by rewrite re_search_skip. }
  split; [done|]. intros post. rewrite Hskip. unfold gpu_of_env.
  assert (match_here (ENV_KEY ++ lit "all" ++ post) = Some (lit "all")) as Hm.
  { unfold match_here. rewrite strip_prefix_app.
    assert (startswith (lit "all") (lit "all" ++ post) = true) as ->
      by (apply startswith_true; eauto).
    done. }
  destruct post as [|c post]; destruct (ENV_KEY ++ lit "all" ++ _) eqn:E;
    cbn [re_search]; by rewrite Hm.
Qed.

Lemma gpu_of_env_first_match_witness :
  (78%N ∉ lit "[PATH=/bin MY_")
  ∧ gpu_of_env (lit "[PATH=/bin MY_" ++ ENV_KEY ++ lit "all" ++ lit "ocated]")
    = lit "all".
Proof.
  assert (78%N ∉ lit "[PATH=/bin MY_") as H
    by (apply (bool_decide_unpack _); vm_compute; exact I).
  split; [exact H|].
  exact (proj2 (gpu_of_env_first_match (lit "[PATH=/bin MY_") H)
           (lit "ocated]")).
Defined.

(** ** [docker login] and [docker pull] *)

Lemma app_char_inj {A} (c : A) u u' r r' :
  c ∉ u → c ∉ u' → u ++ c :: r = u' ++ c :: r' → u = u' ∧ r = r'.
Proof.
  revert u'. induction u as [|x u IH]; intros [|x' u'] Hu Hu' Heq.
  - by injection Heq as ->.
  - injection Heq as <- _. exfalso. apply Hu'. by left.
  - injection Heq as -> _. exfalso. apply Hu. by left.
  - injection Heq as -> Heq.
    destruct (IH u') as [-> ->]; [| |done|done].
    + intros ?. apply Hu. by right.
    + intros ?. apply Hu'. by right.
Qed.

Lemma split_join_char c parts :
  parts ≠ [] →
  split [c] (join [c] parts) = concat (split [c] <$> parts).
Proof.
  intros Hne. induction parts as [|p parts IH]; [done|].
  destruct parts as [|p' parts].
  - cbn [join fmap list_fmap concat]. by rewrite app_nil_r.
  - change (join [c] (p :: p' :: parts))
      with (p ++ c :: join [c] (p' :: parts)).
    rewrite split_char_app, IH by done. done.
Qed.

(** X15: the command of [docker login] does not delimit the user name from
    the password: a user name that holds [ -p ] gives the same command as a
    shorter user name with a longer password.  Among user names without a
    space the command determines both. *)
Theorem login_command_unquoted :
  (∀ u x p : str,
     login_command (u ++ lit " -p " ++ x) p
     = login_command u (x ++ lit " -p " ++ p))
  ∧ ∀ u p u' p' : str,
      32%N ∉ u → 32%N ∉ u' →
      login_command u p = login_command u' p' → u = u' ∧ p = p'.
Proof.
  unfold login_command. split.
  - intros u x p. by rewrite <-!app_assoc.
  - intros u p u' p' Hu Hu' Heq.
    apply app_inv_head in Heq.
    change (lit " -p ") with (32%N :: lit "-p ") in Heq.
    rewrite <-!app_comm_cons in Heq.
    apply app_char_inj in Heq as [-> Heq]; [|done..].
    by apply app_inv_head in Heq as ->.
Qed.

(** X16: the command of [docker pull] joins the image and the extra
    arguments with single spaces and quotes nothing: its words are
    [docker], [pull], then the words of the image and of each argument, so
    an argument that holds a space arrives as several words, and arguments
    without spaces arrive unchanged and in order. *)
Theorem pull_command_words (image : str) (args : list str) :
  split (lit " ") (pull_command image args)
  = [lit "docker"; lit "pull"]
      ++ concat (split (lit " ") <$> (image :: args))
  ∧ (32%N ∉ image → Forall (λ a, 32%N ∉ a) args →
     split (lit " ") (pull_command image args)
     = [lit "docker"; lit "pull"; image] ++ args).
Proof.
  assert (pull_command image args
          = join [32%N] (lit "docker" :: lit "pull" :: image :: args)) as ->
    by (by destruct args).
  change (lit " ") with [32%N].
  assert (split [32%N] (join [32%N] (lit "docker" :: lit "pull" :: image :: args))
          = [lit "docker"; lit "pull"]
              ++ concat (split [32%N] <$> (image :: args))) as Hwords.
  { rewrite split_join_char by done. cbn [fmap list_fmap concat].
    assert (split [32%N] (lit "docker") = [lit "docker"]) as -> by reflexivity.
    assert (split [32%N] (lit "pull") = [lit "pull"]) as -> by reflexivity.
    done. }
  split; [exact Hwords|]. intros Himage Hargs. rewrite Hwords.
  cbn [fmap list_fmap concat app]. rewrite (split_char_absent _ _ Himage).
  cbn [app]. do 3 f_equal. clear Hwords.
  induction Hargs as [|a args Ha _ IH]; [done|].
  cbn [fmap list_fmap concat]. by rewrite (split_char_absent _ _ Ha), IH.
Qed.

Lemma pull_command_words_witness :
  split (lit " ") (pull_command (lit "nginx:1.25") [lit "--quiet"; lit "-a"])
  = [lit "docker"; lit "pull"; lit "nginx:1.25"; lit "--quiet"; lit "-a"].
Proof.
  apply (proj2 (pull_command_words (lit "nginx:1.25")
                  [lit "--quiet"; lit "-a"]));
    apply (bool_decide_unpack _); vm_compute; exact I.
Defined.
